(** * Fractional Stock Investor: the allocation engine of [App.tsx]

    A shallow embedding of the three event handlers of the [App] component
    that make up the budget allocation engine

    - [handleCalculateInvestment]  (greedy allocation),
    - [handleRemoveStock]          (removal followed by a deferred recalculation),
    - [handleAdjustInvestment]     (manual override of one invested amount),

    together with the properties of the specification that concern them.
    Of the state of [App] only the five cells the engine works on are kept
    ([budget], [stocks], [investmentResults], [totalInvestedAmount],
    [totalActualReturn]); the flag [isCalculating] and the state of the
    AI assistant play no part in the allocation.

    ** Numbers

    The fields [price], [expectedReturn], [fraction], [investedAmount],
    [actualReturn] and the budget are JavaScript numbers: IEEE 754 binary64
    values.  They are modelled by the type [number]: the three special
    values [NaN], [Infinity] and [NegInfinity], and the finite values as
    rationals ([Qc], rationals in lowest terms, so that equal numbers are
    equal terms).  The special values follow IEEE 754 as JavaScript does
    ([NaN] is absorbing and compares false with everything,
    [Infinity - Infinity] and [0 * Infinity] are [NaN], ...).  The sign of
    zero is not kept.

    The arithmetic comes in two readings.

    - The exact reading ([add], [sub], [mul], [div]) computes on the
      rationals without rounding.  The handlers are embedded over it, and
      it carries the properties that do not depend on how a result is
      rounded: which branch a handler takes once the values its test
      compares are given, what it leaves unchanged, which entries exist
      and in which order, and equations between numbers the code computes
      by the same operations in the same order.
    - The binary64 reading (module [Double]) rounds the result of every
      operation to the nearest binary64 value, as the machine does.  It is
      the one that decides bounds and equations between sums taken in
      different orders: there rounding shows. *)

From Stdlib Require Import QArith Qcanon Qround Qpower Lqa ZArith Lia.
From Stdlib Require Import List String Bool Permutation Sorted.
Import ListNotations.

(** ** JavaScript numbers *)

Inductive number : Type :=
| NaN
| Infinity
| NegInfinity
| Fin (q : Qc).

Declare Scope js_scope.
Delimit Scope js_scope with js.
Bind Scope js_scope with number.

Definition of_Z (z : Z) : number := Fin (Q2Qc (inject_Z z)).
Definition of_Q (q : Q) : number := Fin (Q2Qc q).

Definition Qc_leb (a b : Qc) : bool := Qle_bool a b.
Definition Qc_ltb (a b : Qc) : bool := negb (Qle_bool b a).
Definition Qc_eqb (a b : Qc) : bool := Qeq_bool a b.

(** [x + y] *)
Definition add (x y : number) : number :=
  match x, y with
  | NaN, _ | _, NaN => NaN
  | Infinity, NegInfinity | NegInfinity, Infinity => NaN
  | Infinity, _ | _, Infinity => Infinity
  | NegInfinity, _ | _, NegInfinity => NegInfinity
  | Fin a, Fin b => Fin (a + b)
  end.

(** [-x] *)
Definition neg (x : number) : number :=
  match x with
  | NaN => NaN
  | Infinity => NegInfinity
  | NegInfinity => Infinity
  | Fin a => Fin (- a)
  end.

(** [x - y] *)
Definition sub (x y : number) : number := add x (neg y).

Definition signed_infinity (s : comparison) : number :=
  match s with
  | Eq => NaN
  | Lt => Infinity       (* 0 < magnitude: positive *)
  | Gt => NegInfinity
  end.

Definition sign_product (s t : comparison) : comparison :=
  match s, t with
  | Eq, _ | _, Eq => Eq
  | Lt, Lt | Gt, Gt => Lt
  | Lt, Gt | Gt, Lt => Gt
  end.

(** The sign of [x] as the outcome of comparing 0 with [x]:
    [Lt] for a positive number, [Gt] for a negative one. *)
Definition sign (x : number) : comparison :=
  match x with
  | NaN => Eq
  | Infinity => Lt
  | NegInfinity => Gt
  | Fin a => (0 ?= a)%Q
  end.

(** [x * y] *)
Definition mul (x y : number) : number :=
  match x, y with
  | NaN, _ | _, NaN => NaN
  | Fin a, Fin b => Fin (a * b)
  | _, _ => signed_infinity (sign_product (sign x) (sign y))
  end.

(** [x / y].  A zero divisor counts as [+0]. *)
Definition div (x y : number) : number :=
  match x, y with
  | NaN, _ | _, NaN => NaN
  | Fin a, Fin b =>
      if Qc_eqb b 0 then signed_infinity (sign x) else Fin (a / b)
  | Fin _, _ => Fin 0
  | _, Fin b => if Qc_ltb b 0 then neg x else x
  | _, _ => NaN
  end.

(** [Math.floor(x)] *)
Definition floor (x : number) : number :=
  match x with
  | Fin a => of_Z (Qfloor a)
  | _ => x
  end.

(** [x < y] *)
Definition ltb (x y : number) : bool :=
  match x, y with
  | NaN, _ | _, NaN => false
  | _, NegInfinity => false
  | NegInfinity, _ => true
  | Infinity, _ => false
  | _, Infinity => true
  | Fin a, Fin b => Qc_ltb a b
  end.

(** [x <= y] *)
Definition leb (x y : number) : bool :=
  match x, y with
  | NaN, _ | _, NaN => false
  | NegInfinity, _ => true
  | _, Infinity => true
  | _, NegInfinity => false
  | Infinity, _ => false
  | Fin a, Fin b => Qc_leb a b
  end.

(** [x > y] and [x >= y] *)
Definition gtb (x y : number) : bool := ltb y x.
Definition geb (x y : number) : bool := leb y x.

(** [isNaN(x)] *)
Definition isNaN (x : number) : bool :=
  match x with NaN => true | _ => false end.

(** [Number.isFinite(x)] *)
Definition isFinite (x : number) : bool :=
  match x with Fin _ => true | _ => false end.

(** [x || 0] on a number: the falsy numbers are [0] and [NaN]. *)
Definition or_zero (x : number) : number :=
  match x with NaN => of_Z 0 | _ => x end.

Definition number_eq_dec (x y : number) : {x = y} + {x <> y}.
Proof.
  destruct x as [| | |a], y as [| | |b];
    try (left; reflexivity); try (right; discriminate).
  destruct (Qc_eq_dec a b) as [e|n].
  - left; f_equal; exact e.
  - right; intro H; apply n; injection H; trivial.
Defined.

Notation "x + y" := (add x y) : js_scope.
Notation "x - y" := (sub x y) : js_scope.
Notation "x * y" := (mul x y) : js_scope.
Notation "x / y" := (div x y) : js_scope.
Notation "x <? y" := (ltb x y) : js_scope.
Notation "x <=? y" := (leb x y) : js_scope.
Notation "x >? y" := (gtb x y) : js_scope.
Notation "x >=? y" := (geb x y) : js_scope.
Notation "0" := (of_Z 0) : js_scope.
Notation "100" := (of_Z 100) : js_scope.

(** ** The data model ([types.ts]) *)

Record Stock : Type := mkStock {
  id : string;
  name : string;
  price : number;
  expectedReturn : number
}.

Record InvestmentResult : Type := mkResult {
  stockId : string;
  stockName : string;
  fraction : number;
  investedAmount : number;
  actualReturn : number
}.

(** ** [Map<string, InvestmentResult>]

    A JavaScript [Map] iterates in insertion order, and [set] on a key that
    is present replaces the value without moving the key.  The order matters
    here: [Array.from(resultsMap.values())] is the result array. *)

Definition ResultsMap := list (string * InvestmentResult).

Fixpoint map_get (m : ResultsMap) (k : string) : option InvestmentResult :=
  match m with
  | [] => None
  | (k', v) :: m' => if String.eqb k' k then Some v else map_get m' k
  end.

Fixpoint map_set (m : ResultsMap) (k : string) (v : InvestmentResult) : ResultsMap :=
  match m with
  | [] => [(k, v)]
  | (k', v') :: m' =>
      if String.eqb k' k then (k', v) :: m' else (k', v') :: map_set m' k v
  end.

Definition map_values (m : ResultsMap) : list InvestmentResult := map snd m.
Definition map_keys (m : ResultsMap) : list string := map fst m.

(** ** [Array.prototype.sort]

    [sort] is stable (ECMAScript 2019) and puts [a] after [b] when
    [compareFn(a, b) > 0]; a [NaN] outcome counts as [0].  For a consistent
    comparator the result is determined by these two facts (lemma
    [sortedStocks_unique] below); it is computed here by stable insertion:
    an element goes before the first element of the sorted rest that must
    not come before it. *)

Section Sort.
Variable A : Type.
Variable compareFn : A -> A -> number.

Fixpoint sort_insert (x : A) (l : list A) : list A :=
  match l with
  | [] => [x]
  | y :: l' =>
      if (compareFn x y >? 0)%js then y :: sort_insert x l' else x :: y :: l'
  end.

Fixpoint sort (l : list A) : list A :=
  match l with
  | [] => []
  | x :: l' => sort_insert x (sort l')
  end.
End Sort.

Arguments sort_insert {A} compareFn x l.
Arguments sort {A} compareFn l.

(** ** Component state

    The five [useState] cells of [App] that the engine reads and writes. *)

Record AppState : Type := mkState {
  budget : number;
  stocks : list Stock;
  investmentResults : list InvestmentResult;
  totalInvestedAmount : number;
  totalActualReturn : number
}.

(** The four [alert] messages of the engine. *)
Inductive Alert : Type :=
| PositiveBudgetAlert      (* 'Please enter a positive budget and add at least one stock.' *)
| InvalidAmountAlert       (* 'Please enter a valid non-negative number for the invested amount.' *)
| StockNotFoundAlert       (* 'Error: Stock details not found for this adjustment.' *)
| BudgetExceededAlert (newAmount budget currentTotal : number).
                           (* 'Cannot invest $.. This would exceed your total budget of $.. (Current total: $..).' *)

(** A handler is a sequence of state-setter calls and alerts: it maps the
    state to the next state and the alerts shown. *)
Definition Effect : Type := AppState -> AppState * list Alert.

Definition andThen (e1 e2 : Effect) : Effect :=
  fun st =>
    let (st1, a1) := e1 st in
    let (st2, a2) := e2 st1 in
    (st2, a1 ++ a2).

Notation "e1 ;; e2" := (andThen e1 e2) (at level 61, right associativity).

Definition alert (a : Alert) : Effect := fun st => (st, [a]).

Definition setStocks (f : list Stock -> list Stock) : Effect :=
  fun st =>
    (mkState (budget st) (f (stocks st)) (investmentResults st)
             (totalInvestedAmount st) (totalActualReturn st), []).

Definition setInvestmentResults
    (f : list InvestmentResult -> list InvestmentResult) : Effect :=
  fun st =>
    (mkState (budget st) (stocks st) (f (investmentResults st))
             (totalInvestedAmount st) (totalActualReturn st), []).

Definition setTotalInvestedAmount (v : number) : Effect :=
  fun st =>
    (mkState (budget st) (stocks st) (investmentResults st)
             v (totalActualReturn st), []).

Definition setTotalActualReturn (v : number) : Effect :=
  fun st =>
    (mkState (budget st) (stocks st) (investmentResults st)
             (totalInvestedAmount st) v, []).

(** [setTimeout(callback, 0)]: the callback runs after the handler that
    scheduled it has returned and its state updates have been applied. *)
Definition setTimeout (callback : Effect) : Effect := callback.

(** ** [handleCalculateInvestment] *)

Definition zeroResult (stock : Stock) : InvestmentResult :=
  mkResult (id stock) (name stock) 0%js 0%js 0%js.

(** [stocks.forEach(stock => resultsMap.set(stock.id, {...}))] *)
Definition initResultsMap (stocks : list Stock) : ResultsMap :=
  fold_left (fun m stock => map_set m (id stock) (zeroResult stock)) stocks [].

(** [(a, b) => (b.expectedReturn / b.price) - (a.expectedReturn / a.price)] *)
Definition compareStocks (a b : Stock) : number :=
  ((expectedReturn b / price b) - (expectedReturn a / price a))%js.

Definition sortedStocks (stocks : list Stock) : list Stock :=
  sort compareStocks stocks.

(** The variables of the [for] loop. *)
Record Walk : Type := mkWalk {
  currentBudget : number;
  currentTotalReturn : number;
  currentTotalInvestedAmount : number;
  resultsMap : ResultsMap
}.

(** The three locals [fraction], [investedAmount], [actualReturn] computed
    for one stock. *)
Definition buy (currentBudget : number) (stock : Stock) : number * number * number :=
  if (currentBudget >=? price stock)%js then
    let numShares := floor (currentBudget / price stock)%js in
    (numShares,
     (numShares * price stock)%js,
     ((numShares * price stock) * (expectedReturn stock / 100))%js)
  else
    ((currentBudget / price stock)%js,
     currentBudget,
     (currentBudget * (expectedReturn stock / 100))%js).

(** Assignment to the three fields of the object held by the map under
    [stock.id]: the key keeps its place, the entry keeps [stockId] and
    [stockName]. *)
Definition record_buy (m : ResultsMap) (stock : Stock)
    (fraction investedAmount actualReturn : number) : ResultsMap :=
  match map_get m (id stock) with
  | Some existingResult =>
      map_set m (id stock)
        (mkResult (stockId existingResult) (stockName existingResult)
                  fraction investedAmount actualReturn)
  | None => m
  end.

(** The body of the [for] loop after the [break] test: buy, record the buy
    in the map, update the three running variables. *)
Definition invest (w : Walk) (stock : Stock) : Walk :=
  let '(fraction, investedAmount, actualReturn) := buy (currentBudget w) stock in
  mkWalk (currentBudget w - investedAmount)%js
         (currentTotalReturn w + actualReturn)%js
         (currentTotalInvestedAmount w + investedAmount)%js
         (record_buy (resultsMap w) stock fraction investedAmount actualReturn).

(** [for (const stock of sortedStocks) { if (currentBudget <= 0) break; ... }] *)
Fixpoint walk (sorted : list Stock) (w : Walk) : Walk :=
  match sorted with
  | [] => w
  | stock :: rest =>
      if (currentBudget w <=? 0)%js then w else walk rest (invest w stock)
  end.

(** [reduce((sum, res) => sum + res.investedAmount, 0)] and the same for
    [actualReturn]. *)
Definition sumInvested (results : list InvestmentResult) : number :=
  fold_left (fun sum res => (sum + investedAmount res)%js) results 0%js.

Definition sumReturn (results : list InvestmentResult) : number :=
  fold_left (fun sum res => (sum + actualReturn res)%js) results 0%js.

(** [stocks.find(s => s.id === stockId)] *)
Definition findStock (stocks : list Stock) (stockId' : string) : option Stock :=
  find (fun s => String.eqb (id s) stockId') stocks.

(** [investmentResults.find(r => r.stockId === stockId)] *)
Definition findResult (results : list InvestmentResult)
    (stockId' : string) : option InvestmentResult :=
  find (fun r => String.eqb (stockId r) stockId') results.

(** [currentInvestmentResult?.investedAmount || 0] *)
Definition currentInvestmentAmount (results : list InvestmentResult)
    (stockId' : string) : number :=
  match findResult results stockId' with
  | Some currentInvestmentResult => or_zero (investedAmount currentInvestmentResult)
  | None => 0%js
  end.

(** The callback of [prevResults.map] in [handleAdjustInvestment]. *)
Definition adjustResult (stockToAdjust : Stock) (stockId' : string)
    (newAmount : number) (result : InvestmentResult) : InvestmentResult :=
  if String.eqb (stockId result) stockId' then
    mkResult (stockId result) (stockName result)
             (newAmount / price stockToAdjust)%js
             newAmount
             (newAmount * (expectedReturn stockToAdjust / 100))%js
  else result.

(** The handlers are closures created by a render: they read the state
    values of that render ([useCallback] with the dependency lists of the
    source), while the setters act on the state current when they run. *)
Section Render.
Variable render : AppState.

Definition handleCalculateInvestment : Effect :=
  if (budget render <=? 0)%js || (List.length (stocks render) =? 0)%nat then
    setInvestmentResults (fun _ => map zeroResult (stocks render)) ;;
    setTotalInvestedAmount 0%js ;;
    setTotalActualReturn 0%js ;;
    alert PositiveBudgetAlert
  else
    let final :=
      walk (sortedStocks (stocks render))
           (mkWalk (budget render) 0%js 0%js (initResultsMap (stocks render))) in
    setInvestmentResults (fun _ => map_values (resultsMap final)) ;;
    setTotalInvestedAmount (currentTotalInvestedAmount final) ;;
    setTotalActualReturn (currentTotalReturn final).

(** The deferred callback calls the [handleCalculateInvestment] of the
    render that created this handler: it reads the [budget] and [stocks] of
    that render, not the list [setStocks] has just produced. *)
Definition handleRemoveStock (id' : string) : Effect :=
  setStocks (filter (fun stock => negb (String.eqb (id stock) id'))) ;;
  setInvestmentResults (filter (fun result => negb (String.eqb (stockId result) id'))) ;;
  setTimeout handleCalculateInvestment.

(** [newAmount] is the value of [parseFloat(newAmountString)]; any number
    can come out of it: [NaN] for a text without numeric prefix,
    [Infinity] and [-Infinity] for these words or on overflow.  The updater
    passed to [setInvestmentResults] maps over the results current when it
    runs and sets both totals from the mapped array. *)
Definition handleAdjustInvestment (stockId' : string) (newAmount : number) : Effect :=
  if isNaN newAmount || (newAmount <? 0)%js then
    alert InvalidAmountAlert
  else
    match findStock (stocks render) stockId' with
    | None => alert StockNotFoundAlert
    | Some stockToAdjust =>
        let amountDifference :=
          (newAmount - currentInvestmentAmount (investmentResults render) stockId')%js in
        let newTotalInvested := (totalInvestedAmount render + amountDifference)%js in
        if (newTotalInvested >? budget render)%js then
          alert (BudgetExceededAlert newAmount (budget render) (totalInvestedAmount render))
        else
          fun st =>
            let updatedResults :=
              map (adjustResult stockToAdjust stockId' newAmount) (investmentResults st) in
            (mkState (budget st) (stocks st) updatedResults
                     (sumInvested updatedResults) (sumReturn updatedResults), [])
    end.
End Render.

(** A user event runs the handler of the latest render, whose captured
    values are those of the current state. *)
Definition onCalculate (st : AppState) : AppState * list Alert :=
  handleCalculateInvestment st st.

Definition onRemoveStock (id' : string) (st : AppState) : AppState * list Alert :=
  handleRemoveStock st id' st.

Definition onAdjustInvestment (stockId' : string) (newAmount : number)
    (st : AppState) : AppState * list Alert :=
  handleAdjustInvestment st stockId' newAmount st.

(** [allocate(budget, stocks)]: the allocation computed from a fresh state. *)
Definition allocate (b : number) (ss : list Stock) : AppState :=
  fst (onCalculate (mkState b ss [] 0%js 0%js)).

(** ** The allocation in binary64 arithmetic

    The operators above compute with exact rationals; a JavaScript number
    is an IEEE 754 binary64 value, and every [+], [-], [*] and [/] rounds
    its exact result to the nearest such value.  The module [Double] gives
    the operators with that rounding and [handleCalculateInvestment] over
    them.  The finite binary64 values are the rationals [m * 2 ^ e] with
    [|m| < 2 ^ 53] and [-1074 <= e <= 971]; the two zeros are not
    told apart.  [Math.floor] and the comparisons are exact on such
    values and are the ones of the exact reading. *)

Module Double.

(** [2 ^ e] *)
Definition pow2 (e : Z) : Q := (2 ^ e)%Q.

(** The binary exponent of [x > 0]: the [e] with [2 ^ e <= x < 2 ^ (e + 1)]. *)
Definition exponent (x : Q) : Z :=
  let e := (Z.log2 (Qnum x) - Z.log2 (Zpos (Qden x)))%Z in
  if Qle_bool (pow2 e) x then e else (e - 1)%Z.

(** The integer nearest to [x], the even one of the two when [x] lies
    half way. *)
Definition nearest_even (x : Q) : Z :=
  let f := Qfloor x in
  match (x - inject_Z f ?= 1 # 2)%Q with
  | Lt => f
  | Gt => (f + 1)%Z
  | Eq => if Z.even f then f else (f + 1)%Z
  end.

(** The distance of the binary64 numbers around [x > 0]: 53 significant
    bits, and [2 ^ -1074] in the subnormal range. *)
Definition ulp (x : Q) : Q := pow2 (Z.max (exponent x - 52) (-1074)).

(** The multiple of [ulp x] nearest to [x > 0]. *)
Definition round_pos (x : Q) : Q :=
  (inject_Z (nearest_even (x / ulp x)) * ulp x)%Q.

(** Rounding to binary64: to nearest, ties to even; a result of magnitude
    [2 ^ 1024] or more is an infinity. *)
Definition round (x : number) : number :=
  match x with
  | Fin q =>
      match (0 ?= q)%Q with
      | Eq => x
      | Lt => let r := round_pos q in
              if Qle_bool (pow2 1024) r then Infinity else Fin (Q2Qc r)
      | Gt => let r := round_pos (- q) in
              if Qle_bool (pow2 1024) r then NegInfinity else Fin (Q2Qc (- r))
      end
  | _ => x
  end.

(** The four operators [+], [-], [*], [/]: the exact result, rounded. *)
Definition add (x y : number) : number := round (x + y)%js.
Definition sub (x y : number) : number := round (x - y)%js.
Definition mul (x y : number) : number := round (x * y)%js.
Definition div (x y : number) : number := round (x / y)%js.

(** The number a decimal numeral denotes, as [parseFloat] returns it. *)
Definition lit (q : Q) : number := round (of_Q q).

Declare Scope double_scope.
Delimit Scope double_scope with d.
(* Operands of a rounding operator are read in [double_scope] too: in an
   expression marked [%d] every operator, at any depth, rounds. *)
Arguments add (x y)%_double_scope.
Arguments sub (x y)%_double_scope.
Arguments mul (x y)%_double_scope.
Arguments div (x y)%_double_scope.
Notation "x + y" := (add x y) : double_scope.
Notation "x - y" := (sub x y) : double_scope.
Notation "x * y" := (mul x y) : double_scope.
Notation "x / y" := (div x y) : double_scope.
Notation "0" := (of_Z 0) : double_scope.
Notation "100" := (of_Z 100) : double_scope.

(** [handleCalculateInvestment], line by line as in the exact reading,
    with the rounding operators. *)
Definition compareStocks (a b : Stock) : number :=
  ((expectedReturn b / price b) - (expectedReturn a / price a))%d.

Definition sortedStocks (stocks : list Stock) : list Stock :=
  sort compareStocks stocks.

Definition buy (currentBudget : number) (stock : Stock) : number * number * number :=
  if (currentBudget >=? price stock)%js then
    let numShares := floor (currentBudget / price stock)%d in
    (numShares,
     (numShares * price stock)%d,
     ((numShares * price stock) * (expectedReturn stock / 100))%d)
  else
    ((currentBudget / price stock)%d,
     currentBudget,
     (currentBudget * (expectedReturn stock / 100))%d).

Definition invest (w : Walk) (stock : Stock) : Walk :=
  let '(fraction, investedAmount, actualReturn) := buy (currentBudget w) stock in
  mkWalk (currentBudget w - investedAmount)%d
         (currentTotalReturn w + actualReturn)%d
         (currentTotalInvestedAmount w + investedAmount)%d
         (record_buy (resultsMap w) stock fraction investedAmount actualReturn).

Fixpoint walk (sorted : list Stock) (w : Walk) : Walk :=
  match sorted with
  | [] => w
  | stock :: rest =>
      if (currentBudget w <=? 0)%js then w else walk rest (invest w stock)
  end.

(** [reduce((sum, res) => sum + res.investedAmount, 0)] *)
Definition sumInvested (results : list InvestmentResult) : number :=
  fold_left (fun sum res => (sum + investedAmount res)%d) results 0%d.

Section Render.
Variable render : AppState.

Definition handleCalculateInvestment : Effect :=
  if (budget render <=? 0)%js || (List.length (stocks render) =? 0)%nat then
    setInvestmentResults (fun _ => map zeroResult (stocks render)) ;;
    setTotalInvestedAmount 0%d ;;
    setTotalActualReturn 0%d ;;
    alert PositiveBudgetAlert
  else
    let final :=
      walk (sortedStocks (stocks render))
           (mkWalk (budget render) 0%d 0%d (initResultsMap (stocks render))) in
    setInvestmentResults (fun _ => map_values (resultsMap final)) ;;
    setTotalInvestedAmount (currentTotalInvestedAmount final) ;;
    setTotalActualReturn (currentTotalReturn final).
End Render.

Definition onCalculate (st : AppState) : AppState * list Alert :=
  handleCalculateInvestment st st.

Definition allocate (b : number) (ss : list Stock) : AppState :=
  fst (onCalculate (mkState b ss [] 0%d 0%d)).

(** The loop variables when the [for] loop has ended. *)
Definition finalWalk (b : number) (ss : list Stock) : Walk :=
  walk (sortedStocks ss) (mkWalk b 0%d 0%d (initResultsMap ss)).

(** [remainingBudget] of [InvestmentResults]:
    [initialBudget - totalInvestedAmount]. *)
Definition remainingBudget (st : AppState) : number :=
  (budget st - totalInvestedAmount st)%d.

End Double.

(** ** Vocabulary of the specification *)

Open Scope string_scope.
Open Scope list_scope.

(** A stock as the data model has it: a finite, strictly positive price
    and a finite, non-negative expected return. *)
Definition valid_stock (s : Stock) : Prop :=
  exists p e, price s = Fin p /\ expectedReturn s = Fin e /\ (0 < p)%Qc /\ (0 <= e)%Qc.

(** The test that sends [handleCalculateInvestment] to its first branch. *)
Definition degenerate (b : number) (ss : list Stock) : bool :=
  (b <=? 0)%js || (List.length ss =? 0)%nat.

(** The loop variables when the [for] loop has ended. *)
Definition finalWalk (b : number) (ss : list Stock) : Walk :=
  walk (sortedStocks ss) (mkWalk b 0%js 0%js (initResultsMap ss)).

Definition zeroValued (r : InvestmentResult) : Prop :=
  fraction r = 0%js /\ investedAmount r = 0%js /\ actualReturn r = 0%js.

(** [actualReturn = investedAmount * expectedReturn / 100] for every entry
    and every listed stock with the entry's id.  The product is taken as
    the code takes it, the amount times the hundredth of the return
    ([investedAmount * (expectedReturn / 100)]), so that the equation is
    one between the numbers the code stores, with no rounding in between. *)
Definition consistent (ss : list Stock) (rs : list InvestmentResult) : Prop :=
  forall r s, In r rs -> In s ss -> id s = stockId r ->
    actualReturn r = (investedAmount r * (expectedReturn s / 100))%js.

(** The sum of a field across all entries, as a fresh summation has it:
    starting from 0, the entries are added one after the other in their
    order. *)
Fixpoint sumAcross (field : InvestmentResult -> number)
    (entries : list InvestmentResult) (sum : number) : number :=
  match entries with
  | [] => sum
  | entry :: others => sumAcross field others (sum + field entry)%js
  end.

Definition freshTotal (field : InvestmentResult -> number)
    (entries : list InvestmentResult) : number :=
  sumAcross field entries 0%js.

(** The amount passes the first test of [handleAdjustInvestment]. *)
Definition acceptedAmount (amt : number) : bool :=
  negb (isNaN amt || (amt <? 0)%js).

(** The total that [handleAdjustInvestment] compares with the budget. *)
Definition newTotalInvested (st : AppState) (k : string) (amt : number) : number :=
  (totalInvestedAmount st + (amt - currentInvestmentAmount (investmentResults st) k))%js.

(** The efficiency of a stock, as the glossary of the specification has
    it: [expectedReturn] divided by [price]. *)
Definition efficiency (s : Stock) : number := (expectedReturn s / price s)%js.

(** The order the specification asks of the walk, and the stocks of one
    efficiency. *)
Definition descending (a b : Stock) : Prop :=
  (efficiency a >=? efficiency b)%js = true.

Definition hasEfficiency (e : number) (s : Stock) : bool :=
  if number_eq_dec (efficiency s) e then true else false.

(** *** Auxiliary notions of the proofs *)

(** Every entry of the map is stored under its own [stockId]. *)
Definition keyed (m : ResultsMap) : Prop :=
  Forall (fun kv => stockId (snd kv) = fst kv) m.

(** The rational value of a finite number. *)
Definition amountQ (x : number) : Qc :=
  match x with Fin q => q | _ => 0%Qc end.

Definition sumQ (rs : list InvestmentResult) : Qc :=
  fold_right (fun r acc => (amountQ (investedAmount r) + acc)%Qc) 0%Qc rs.

Definition effQ (s : Stock) : Qc := amountQ (efficiency s).

Definition nonneg_amount (r : InvestmentResult) : Prop :=
  exists q, investedAmount r = Fin q /\ (0 <= q)%Qc.

(** Loop invariant of the budget bound: the running budget and the running
    total are finite and add up to the budget, the entries are finite and
    non-negative and their sum is within the running total. *)
Definition budget_inv (b : Qc) (w : Walk) : Prop :=
  exists c t,
    currentBudget w = Fin c /\ currentTotalInvestedAmount w = Fin t /\
    (0 <= c)%Qc /\ (c + t)%Qc = b /\
    Forall nonneg_amount (map_values (resultsMap w)) /\
    (sumQ (map_values (resultsMap w)) <= t)%Qc.

(** With pairwise distinct ids every round writes to an entry that is
    still zero, so the running total is the sum of the entries. *)
Definition exact_inv (b : Qc) (rest : list Stock) (w : Walk) : Prop :=
  Forall valid_stock rest /\ NoDup (map id rest) /\ budget_inv b w /\
  (forall s, In s rest ->
     exists r, map_get (resultsMap w) (id s) = Some r /\ investedAmount r = 0%js) /\
  currentTotalInvestedAmount w = Fin (sumQ (map_values (resultsMap w))).

(** The whole number of a number (0 for the values that have none). *)
Definition wholeAmount (x : number) : Z :=
  match x with Fin q => Qfloor q | _ => 0%Z end.


(** The price is a whole number from 1 to [2 ^ 51]. *)
Definition whole_price (s : Stock) : Prop :=
  exists p, price s = of_Z p /\ (0 < p <= 2 ^ 51)%Z.




(** Every entry of the map agrees with every stock of [ss] that has its key. *)
Definition map_consistent (ss : list Stock) (m : ResultsMap) : Prop :=
  forall k r s, In (k, r) m -> In s ss -> id s = k ->
    actualReturn r = (investedAmount r * (expectedReturn s / 100))%js.

(** *** Fixtures *)

(** The stocks of the greedy-ordering example. *)
Definition stockA : Stock := mkStock "A" "A" (of_Z 100) (of_Z 10).
Definition stockB : Stock := mkStock "B" "B" (of_Z 50) (of_Z 10).

(** Two stocks of equal efficiency. *)
Definition tieX : Stock := mkStock "X" "X" (of_Z 100) (of_Z 10).
Definition tieY : Stock := mkStock "Y" "Y" (of_Z 50) (of_Z 5).


(** A state with total 80 on budget 100, stock A at 20. *)
Definition overBudgetState : AppState :=
  mkState (of_Z 100) [stockA; stockB]
          [ mkResult "A" "A" (of_Q (2 # 10)) (of_Z 20) (of_Z 2);
            mkResult "B" "B" (of_Q (12 # 10)) (of_Z 60) (of_Z 6) ]
          (of_Z 80) (of_Z 8).

(** Stock A listed, no allocation run yet. *)
Definition freshState : AppState :=
  mkState (of_Z 100) [stockA] [] 0%js 0%js.

(** ** The form handlers, the derived values and the events of a session *)

(** The alert of [handleAddStock]:
    'Please enter a valid stock name, positive price, and non-negative return.' *)
Inductive FormAlert : Type :=
| InvalidStockAlert.

Definition setBudget (v : number) : Effect :=
  fun st =>
    (mkState v (stocks st) (investmentResults st)
             (totalInvestedAmount st) (totalActualReturn st), []).

(** [handleBudgetChange] of [StockInputForm]; [value] is
    [parseFloat(e.target.value)]. *)
Definition handleBudgetChange (value : number) : Effect :=
  setBudget (if isNaN value then 0%js else value).

(** [handleAddStock] of [StockInputForm], a closure over the [stocks] of
    its render.  [trimmedName] is [newStockName.trim()], [price'] and
    [expectedReturn'] are the values of [parseFloat] on the two number
    fields, [uuid] is the value of [uuidv4()].  The text fields of the form
    are not part of the state kept here. *)
Definition handleAddStock (render : AppState) (uuid trimmedName : string)
    (price' expectedReturn' : number) : AppState -> AppState * list FormAlert :=
  if String.eqb trimmedName EmptyString || isNaN price' || (price' <=? 0)%js
     || isNaN expectedReturn' || (expectedReturn' <? 0)%js
  then fun st => (st, [InvalidStockAlert])
  else
    let newStock := mkStock uuid trimmedName price' expectedReturn' in
    fun st => (fst (setStocks (fun _ => stocks render ++ [newStock]) st), []).

(** [useState] initial values of [App]. *)
Definition initialState : AppState :=
  mkState (of_Z 10000) [] [] 0%js 0%js.

(** The user events that reach the engine, with the values the handlers
    read from the page. *)
Inductive Event : Type :=
| BudgetChange (value : number)
| AddStock (uuid trimmedName : string) (price' expectedReturn' : number)
| Calculate
| RemoveStock (id' : string)
| AdjustInvestment (stockId' : string) (newAmount : number).

(** The state after an event: the handler of the latest render runs on the
    current state. *)
Definition next (e : Event) (st : AppState) : AppState :=
  match e with
  | BudgetChange value => fst (handleBudgetChange value st)
  | AddStock uuid trimmedName price' expectedReturn' =>
      fst (handleAddStock st uuid trimmedName price' expectedReturn' st)
  | Calculate => fst (onCalculate st)
  | RemoveStock id' => fst (onRemoveStock id' st)
  | AdjustInvestment stockId' newAmount => fst (onAdjustInvestment stockId' newAmount st)
  end.

(** [uuidv4()] returns an id that no listed stock has. *)
Definition freshId (e : Event) (st : AppState) : Prop :=
  match e with
  | AddStock uuid _ _ _ => ~ In uuid (map id (stocks st))
  | _ => True
  end.

(** The states of a session. *)
Inductive reachable : AppState -> Prop :=
| reachable_initial : reachable initialState
| reachable_next (e : Event) (st : AppState) :
    reachable st -> freshId e st -> reachable (next e st).

(** What [handleAddStock] lets through: a non-empty name, a price that is
    a number above 0 and an expected return that is a number not below 0. *)
Definition acceptedStock (s : Stock) : Prop :=
  name s <> EmptyString /\ (price s >? 0)%js = true /\ (expectedReturn s >=? 0)%js = true.

(** The fraction is a whole number of shares. *)
Definition wholeShares (r : InvestmentResult) : Prop :=
  exists n : Z, (0 <= n)%Z /\ fraction r = of_Z n.

(** *** Auxiliary notions of the further proofs *)

(** The state invariant of a session. *)
Definition session_inv (st : AppState) : Prop :=
  isNaN (budget st) = false /\
  Forall acceptedStock (stocks st) /\
  NoDup (map id (stocks st)) /\
  NoDup (map stockId (investmentResults st)).

(** The expected return is a whole number from 0 to [2 ^ 51]. *)
Definition whole_return (s : Stock) : Prop :=
  exists e, expectedReturn s = of_Z e /\ (0 <= e <= 2 ^ 51)%Z.

(** [consistent] with the rounding operators. *)
Definition double_consistent (ss : list Stock) (rs : list InvestmentResult) : Prop :=
  forall r s, In r rs -> In s ss -> id s = stockId r ->
    actualReturn r =
    Double.mul (investedAmount r) (Double.div (expectedReturn s) (of_Z 100)).

Definition double_map_consistent (ss : list Stock) (m : ResultsMap) : Prop :=
  forall k r s, In (k, r) m -> In s ss -> id s = k ->
    actualReturn r =
    Double.mul (investedAmount r) (Double.div (expectedReturn s) (of_Z 100)).

(** Loop invariant of the leftover in binary64, for the walk over [l] with
    a whole budget [B] and whole prices: the running budget is below the
    price of every stock already visited, and below the budget once a
    stock has been visited. *)
Definition whole_left_inv (B : Z) (l rest : list Stock) (w : Walk) : Prop :=
  Forall whole_price rest /\
  exists c t,
    currentBudget w = of_Z c /\ currentTotalInvestedAmount w = of_Z t /\
    (0 <= c)%Z /\ (0 <= t)%Z /\ (c + t)%Z = B /\
    (forall s, In s l -> In s rest \/ exists p, price s = of_Z p /\ (c < p)%Z) /\
    ((List.length rest < List.length l)%nat -> (c < B)%Z).

(** Loop invariant of the shares bought: the fractions of the entries are
    whole numbers until a round invests the whole running budget, which
    leaves nothing and makes the one entry that may hold a fraction. *)
Definition fraction_inv (rest : list Stock) (w : Walk) : Prop :=
  Forall valid_stock rest /\
  exists c,
    currentBudget w = Fin c /\ (0 <= c)%Qc /\
    (Forall wholeShares (map_values (resultsMap w))
     \/ (c = 0%Qc /\
         exists k, forall k' r, In (k', r) (resultsMap w) -> k' <> k -> wholeShares r)).

(** Loop invariant of the funding order, for the walk over [l]: the
    stocks already visited hold a positive amount, the others hold 0. *)
Definition priority_inv (l rest : list Stock) (w : Walk) : Prop :=
  Forall valid_stock rest /\ NoDup (map id l) /\
  (exists c, currentBudget w = Fin c /\ (0 <= c)%Qc) /\
  exists pre, l = pre ++ rest /\
    (forall s, In s pre ->
       exists r q, map_get (resultsMap w) (id s) = Some r /\
                   investedAmount r = Fin q /\ (0 < q)%Qc) /\
    (forall s, In s rest ->
       exists r, map_get (resultsMap w) (id s) = Some r /\ investedAmount r = 0%js).

(** The id and the name an entry shows. *)
Definition label (r : InvestmentResult) : string * string :=
  (stockId r, stockName r).

(** ** The AI assistant ([geminiService.ts] and its two text handlers) *)

(** What a [throw] carries: an [Error] with its message, or another value. *)
Inductive Thrown : Type :=
| ErrorObject (message : string)
| OtherValue.

(** A settled promise of a text: fulfilled with the text or rejected. *)
Definition Settled : Type := (string + Thrown)%type.

Inductive GeminiModel : Type :=
| Flash    (* 'gemini-2.5-flash' *)
| Pro.     (* 'gemini-2.5-pro' *)

(** [s.includes(sub)] *)
Fixpoint includes (s sub : string) : bool :=
  String.prefix sub s ||
  match s with
  | EmptyString => false
  | String _ s' => includes s' sub
  end.

Definition doubleQuote : string := String (Ascii.ascii_of_nat 34) EmptyString.
Definition newline : string := String (Ascii.ascii_of_nat 10) EmptyString.

Definition entityNotFound : string := "Requested entity was not found.".
Definition apiKeyMessage : string :=
  "API key might be invalid or unauthorized. Please check your setup.".
Definition failedMessage : string :=
  "Failed to get a response from Gemini. Please try again later.".
Definition queryFallback : string :=
  "An error occurred while fetching the response. Please try again.".
Definition ideasFallback : string :=
  "An error occurred while generating stock ideas. Please try again.".

(** The prompt of [getStockIdeas]. *)
Definition stockIdeasPrompt (description : string) : string :=
  "Generate a list of 5 fictional stock names with realistic-sounding prices (e.g., $50-$1000) and expected returns (e.g., 5-25%) based on the theme "
  ++ doubleQuote ++ description ++ doubleQuote
  ++ ". Provide the output in a markdown list format, like:" ++ newline
  ++ "- StockName1 (Price: $XXX, Return: Y%)" ++ newline
  ++ "- StockName2 (Price: $XXX, Return: Y%)" ++ newline
  ++ "..." ++ newline.

(** The three state cells of [App] the two handlers write. *)
Record AssistantState : Type := mkAssistant {
  geminiResponse : string;
  isQueryingGemini : bool;
  isGeneratingIdeas : bool
}.

(** The alert of [handleGeminiQuery]: 'Please enter a question for Gemini.' *)
Inductive AssistantAlert : Type :=
| EmptyQuestionAlert.

Section Assistant.
(** [String.prototype.trim]. *)
Variable trim : string -> string.
(** [new GoogleGenAI({ apiKey })]: [None] when it returns, the value thrown
    otherwise.  It is called before the [try] block. *)
Variable newClient : option Thrown.
(** The awaited [ai.models.generateContent(...)] with the model and the
    prompt, followed by [response.text]. *)
Variable generateContent : GeminiModel -> string -> Settled.

Definition getGeminiResponse (prompt : string) (model : GeminiModel) : Settled :=
  match newClient with
  | Some thrown => inr thrown
  | None =>
      match generateContent model prompt with
      | inl text => inl text
      | inr error =>
          if match error with
             | ErrorObject message => includes message entityNotFound
             | OtherValue => false
             end
          then inr (ErrorObject apiKeyMessage)
          else inr (ErrorObject failedMessage)
      end
  end.

Definition getStockIdeas (description : string) : Settled :=
  getGeminiResponse (stockIdeasPrompt description) Flash.

(** [handleGeminiQuery], from the click to the end of its [finally]: the
    flag set to [true] and the response cleared before the call are both
    overwritten when the call has settled.  The model is the default one
    of [getGeminiResponse]. *)
Definition handleGeminiQuery (geminiPrompt : string)
    (st : AssistantState) : AssistantState * list AssistantAlert :=
  if String.eqb (trim geminiPrompt) EmptyString then (st, [EmptyQuestionAlert])
  else
    let shown :=
      match getGeminiResponse geminiPrompt Flash with
      | inl response => response
      | inr (ErrorObject message) => message
      | inr OtherValue => queryFallback
      end in
    (mkAssistant shown false (isGeneratingIdeas st), []).

(** [handleGenerateIdeas], from the call to the end of its [finally]. *)
Definition handleGenerateIdeas (description : string)
    (st : AssistantState) : AssistantState :=
  let shown :=
    match getStockIdeas description with
    | inl response =>
        ("**Stock Ideas for " ++ doubleQuote ++ description ++ doubleQuote
         ++ ":**" ++ newline ++ response)%string
    | inr (ErrorObject message) => message
    | inr OtherValue => ideasFallback
    end in
  mkAssistant shown (isQueryingGemini st) false.
End Assistant.

(** *** Further fixtures *)

(** A cheap, efficient stock. *)
Definition stockP : Stock := mkStock "P" "P" (of_Z 10) (of_Z 10).

(** A session: one stock added, then the allocation. *)
Definition sessionState : AppState :=
  next Calculate (next (AddStock "A" "A" (of_Z 100) (of_Z 10)) initialState).

(** * Proofs *)

(** ** Arithmetic of the finite numbers *)

(** Goals on [Qc] are sent to [lra] on [Q]: every [Qred x] is replaced by
    a variable equal to [x] up to [Qeq]. *)
Ltac qc_abs :=
  repeat match goal with
  | |- context [Qred ?x] =>
      let H := fresh "Hred" in let q := fresh "q" in
      pose proof (Qred_correct x) as H; set (q := Qred x) in *; clearbody q
  | H0 : context [Qred ?x] |- _ =>
      let H := fresh "Hred" in let q := fresh "q" in
      pose proof (Qred_correct x) as H; set (q := Qred x) in *; clearbody q
  end.

Ltac qc_lra :=
  unfold Qcminus in *;
  unfold Qcle, Qclt, Qcplus, Qcopp, Qcmult, Q2Qc in *;
  cbn [this] in *; qc_abs; lra.

(** Equality of closed numbers: both sides are computed, the rationals are
    compared by their reduced fractions. *)
Ltac number_eq :=
  repeat first
    [ reflexivity
    | apply Qc_is_canon; reflexivity
    | match goal with |- Fin _ = Fin _ => apply f_equal end
    | match goal with |- _ :: _ = _ :: _ => apply f_equal2 end
    | match goal with
      | |- mkResult _ _ _ _ _ = mkResult _ _ _ _ _ => f_equal
      | |- mkStock _ _ _ _ = mkStock _ _ _ _ => f_equal
      | |- mkState _ _ _ _ _ = mkState _ _ _ _ _ => f_equal
      | |- (_, _) = (_, _) => apply f_equal2
      end ].

Lemma Qc_leb_le (a b : Qc) : Qc_leb a b = true <-> (a <= b)%Qc.
Proof. unfold Qc_leb, Qcle. apply Qle_bool_iff. Qed.

Lemma Qc_ltb_lt (a b : Qc) : Qc_ltb a b = true <-> (a < b)%Qc.
Proof.
  unfold Qc_ltb, Qclt. rewrite negb_true_iff.
  split; intro H.
  - apply Qnot_le_lt. intro Hle. apply Qle_bool_iff in Hle. congruence.
  - destruct (Qle_bool b a) eqn:E; trivial.
    apply Qle_bool_iff in E. exfalso. apply (Qlt_not_le _ _ H E).
Qed.

Lemma Qc_ltb_ge (a b : Qc) : Qc_ltb a b = false <-> (b <= a)%Qc.
Proof.
  unfold Qc_ltb. rewrite negb_false_iff. apply Qc_leb_le.
Qed.

Lemma Qc_eqb_eq (a b : Qc) : Qc_eqb a b = true <-> a = b.
Proof.
  unfold Qc_eqb. rewrite Qeq_bool_iff. split.
  - apply Qc_is_canon.
  - intros ->. reflexivity.
Qed.

Lemma hundred_nonzero : Qc_eqb (Q2Qc (inject_Z 100)) 0 = false.
Proof. reflexivity. Qed.

Lemma div_100_fin (e : Qc) : (Fin e / 100)%js = Fin (e / Q2Qc (inject_Z 100)).
Proof. unfold div. cbn [of_Z]. rewrite hundred_nonzero. reflexivity. Qed.

(** ** Facts about the results map *)

Lemma map_get_set_same (m : ResultsMap) k v : map_get (map_set m k v) k = Some v.
Proof.
  induction m as [|[k' v'] m IH]; simpl.
  - now rewrite String.eqb_refl.
  - destruct (String.eqb k' k) eqn:E; simpl; rewrite E; auto.
Qed.

Lemma map_get_set_other (m : ResultsMap) k k' v :
  k <> k' -> map_get (map_set m k v) k' = map_get m k'.
Proof.
  intros Hne. induction m as [|[k0 v0] m IH]; simpl.
  - apply String.eqb_neq in Hne. now rewrite Hne.
  - destruct (String.eqb k0 k) eqn:E; simpl.
    + apply String.eqb_eq in E. subst k0.
      apply String.eqb_neq in Hne. now rewrite Hne.
    + now rewrite IH.
Qed.

Lemma map_get_in_keys (m : ResultsMap) k v :
  map_get m k = Some v -> In k (map_keys m).
Proof.
  induction m as [|[k' v'] m IH]; simpl; [discriminate|].
  destruct (String.eqb k' k) eqn:E.
  - apply String.eqb_eq in E. auto.
  - auto.
Qed.

Lemma map_get_in_values (m : ResultsMap) k v :
  map_get m k = Some v -> In (k, v) m.
Proof.
  induction m as [|[k' v'] m IH]; simpl; [discriminate|].
  destruct (String.eqb k' k) eqn:E.
  - apply String.eqb_eq in E. intros [= ->]. left. now subst.
  - auto.
Qed.

Lemma map_keys_set_in (m : ResultsMap) k v :
  In k (map_keys m) -> map_keys (map_set m k v) = map_keys m.
Proof.
  induction m as [|[k' v'] m IH]; simpl; [tauto|].
  intros H. destruct (String.eqb k' k) eqn:E; simpl; [reflexivity|].
  f_equal. apply IH. destruct H as [H|H]; [|assumption].
  apply String.eqb_neq in E. congruence.
Qed.

Lemma map_keys_set_notin (m : ResultsMap) k v :
  ~ In k (map_keys m) -> map_keys (map_set m k v) = map_keys m ++ [k].
Proof.
  induction m as [|[k' v'] m IH]; simpl; [reflexivity|].
  intros H. destruct (String.eqb k' k) eqn:E; simpl.
  - apply String.eqb_eq in E. tauto.
  - f_equal. apply IH. tauto.
Qed.

Lemma map_set_values_in (m : ResultsMap) k v kv :
  In kv (map_set m k v) -> In kv m \/ kv = (k, v).
Proof.
  induction m as [|[k' v'] m IH]; simpl.
  - intros [H|[]]; auto.
  - destruct (String.eqb k' k) eqn:E; simpl.
    + apply String.eqb_eq in E. subst. intros [H|H]; auto.
    + intros [H|H]; auto. destruct (IH H); auto.
Qed.

Lemma keyed_set (m : ResultsMap) k v :
  keyed m -> stockId v = k -> keyed (map_set m k v).
Proof.
  intros Hm Hv. apply Forall_forall. intros kv Hin.
  destruct (map_set_values_in _ _ _ _ Hin) as [H| ->].
  - exact (proj1 (Forall_forall _ _) Hm _ H).
  - exact Hv.
Qed.

Lemma keyed_values (m : ResultsMap) :
  keyed m -> map stockId (map_values m) = map_keys m.
Proof.
  unfold map_values, map_keys. induction 1 as [|[k v] m H _ IH]; simpl.
  - reflexivity.
  - simpl in H. now rewrite H, IH.
Qed.

Section InitResultsMap.
Local Abbreviation step :=
  (fun (m : ResultsMap) (stock : Stock) => map_set m (id stock) (zeroResult stock)).

Lemma init_keys_in (ss : list Stock) (m0 : ResultsMap) k :
  In k (map_keys (fold_left step ss m0)) <-> In k (map_keys m0) \/ In k (map id ss).
Proof.
  revert m0. induction ss as [|s ss IH]; intro m0; simpl.
  - tauto.
  - rewrite IH.
    destruct (in_dec string_dec (id s) (map_keys m0)) as [Hin|Hnin].
    + rewrite map_keys_set_in by assumption.
      split; [tauto|]. intros [H|[H|H]]; auto. subst. auto.
    + rewrite map_keys_set_notin by assumption. rewrite in_app_iff. simpl.
      tauto.
Qed.

Lemma init_keys_nodup (ss : list Stock) (m0 : ResultsMap) :
  NoDup (map_keys m0) -> NoDup (map_keys (fold_left step ss m0)).
Proof.
  revert m0. induction ss as [|s ss IH]; intro m0; simpl; [trivial|].
  intros H. apply IH.
  destruct (in_dec string_dec (id s) (map_keys m0)) as [Hin|Hnin].
  - now rewrite map_keys_set_in.
  - rewrite map_keys_set_notin by assumption.
    apply NoDup_app; [assumption|constructor; [tauto|constructor]|].
    intros x Hx [<-|[]]. contradiction.
Qed.

Lemma init_keys_exact (ss : list Stock) (m0 : ResultsMap) :
  NoDup (map_keys m0 ++ map id ss) ->
  map_keys (fold_left step ss m0) = map_keys m0 ++ map id ss.
Proof.
  revert m0. induction ss as [|s ss IH]; intro m0; simpl.
  - now rewrite app_nil_r.
  - intros H.
    assert (Hnin : ~ In (id s) (map_keys m0)).
    { intro Hin. apply NoDup_remove_2 in H. apply H. apply in_or_app. auto. }
    assert (E : map_keys (map_set m0 (id s) (zeroResult s)) = map_keys m0 ++ [id s])
      by (apply map_keys_set_notin; assumption).
    rewrite IH; rewrite E, <- app_assoc; simpl; [reflexivity|assumption].
Qed.

Lemma init_keyed (ss : list Stock) (m0 : ResultsMap) :
  keyed m0 -> keyed (fold_left step ss m0).
Proof.
  revert m0. induction ss as [|s ss IH]; intro m0; simpl; [trivial|].
  intros H. apply IH. now apply keyed_set.
Qed.
End InitResultsMap.

(** ** The walk keeps the keys of the map *)

Lemma record_buy_keys (m : ResultsMap) s f i a :
  map_keys (record_buy m s f i a) = map_keys m.
Proof.
  unfold record_buy. destruct (map_get m (id s)) as [r|] eqn:E; [|reflexivity].
  apply map_keys_set_in. eapply map_get_in_keys; eassumption.
Qed.

Lemma record_buy_keyed (m : ResultsMap) s f i a :
  keyed m -> keyed (record_buy m s f i a).
Proof.
  intros Hm. unfold record_buy.
  destruct (map_get m (id s)) as [r|] eqn:E; [|assumption].
  apply keyed_set; [assumption|]. simpl.
  apply map_get_in_values in E.
  exact (proj1 (Forall_forall _ _) Hm _ E).
Qed.

Lemma invest_resultsMap (w : Walk) (s : Stock) :
  resultsMap (invest w s) =
  record_buy (resultsMap w) s
    (fst (fst (buy (currentBudget w) s)))
    (snd (fst (buy (currentBudget w) s)))
    (snd (buy (currentBudget w) s)).
Proof. unfold invest. destruct (buy (currentBudget w) s) as [[f i] a]. reflexivity. Qed.

(** Induction over the loop: a property of the remaining stocks and the
    loop variables that each round preserves holds when the loop ends, for
    the stocks not reached. *)
Lemma walk_invariant (P : list Stock -> Walk -> Prop) :
  (forall s rest w, P (s :: rest) w -> (currentBudget w <=? 0)%js = false ->
                    P rest (invest w s)) ->
  forall l w, P l w -> exists rest, P rest (walk l w).
Proof.
  intros Hstep. induction l as [|s l IH]; intros w Hw; simpl.
  - now exists [].
  - destruct (currentBudget w <=? 0)%js eqn:E.
    + now exists (s :: l).
    + apply IH. now apply Hstep.
Qed.

Lemma walk_keys (l : list Stock) (w : Walk) :
  map_keys (resultsMap (walk l w)) = map_keys (resultsMap w).
Proof.
  destruct (walk_invariant
              (fun _ w' => map_keys (resultsMap w') = map_keys (resultsMap w))) with
    (l := l) (w := w) as [_ H]; auto.
  intros s rest w' H _. rewrite invest_resultsMap, record_buy_keys. exact H.
Qed.

Lemma walk_keyed (l : list Stock) (w : Walk) :
  keyed (resultsMap w) -> keyed (resultsMap (walk l w)).
Proof.
  intros Hw.
  destruct (walk_invariant (fun _ w' => keyed (resultsMap w'))) with
    (l := l) (w := w) as [_ H]; auto.
  intros s rest w' H _. rewrite invest_resultsMap. now apply record_buy_keyed.
Qed.

(** ** Shape of the state after [handleCalculateInvestment] *)

Lemma handleCalculateInvestment_degenerate (r st : AppState) :
  degenerate (budget r) (stocks r) = true ->
  handleCalculateInvestment r st =
  (mkState (budget st) (stocks st) (map zeroResult (stocks r)) 0%js 0%js,
   [PositiveBudgetAlert]).
Proof.
  unfold degenerate, handleCalculateInvestment. intros ->. reflexivity.
Qed.

Lemma handleCalculateInvestment_regular (r st : AppState) :
  degenerate (budget r) (stocks r) = false ->
  handleCalculateInvestment r st =
  (mkState (budget st) (stocks st)
           (map_values (resultsMap (finalWalk (budget r) (stocks r))))
           (currentTotalInvestedAmount (finalWalk (budget r) (stocks r)))
           (currentTotalReturn (finalWalk (budget r) (stocks r))),
   []).
Proof.
  unfold degenerate, handleCalculateInvestment. intros ->. reflexivity.
Qed.

Lemma degenerate_iff (b : number) (ss : list Stock) :
  degenerate b ss = true <-> (b <=? 0)%js = true \/ ss = [].
Proof.
  unfold degenerate. rewrite orb_true_iff, Nat.eqb_eq.
  split; (intros [H|H]; [now left|right]).
  - now apply length_zero_iff_nil.
  - now subst.
Qed.

Lemma finalWalk_ids (b : number) (ss : list Stock) :
  map stockId (map_values (resultsMap (finalWalk b ss))) = map_keys (initResultsMap ss).
Proof.
  unfold finalWalk. rewrite keyed_values.
  - now rewrite walk_keys.
  - apply walk_keyed. simpl. apply init_keyed. constructor.
Qed.

Lemma map_zeroResult_ids (ss : list Stock) :
  map stockId (map zeroResult ss) = map id ss.
Proof. rewrite map_map. reflexivity. Qed.

Lemma map_zeroResult_zero (ss : list Stock) :
  Forall zeroValued (map zeroResult ss).
Proof.
  apply Forall_forall. intros r Hr. apply in_map_iff in Hr.
  destruct Hr as [s [<- _]]. repeat split.
Qed.

(** The ids of the results are the ids of the stocks. *)
Lemma calculate_ids (st : AppState) (k : string) :
  In k (map stockId (investmentResults (fst (onCalculate st)))) <->
  In k (map id (stocks st)).
Proof.
  unfold onCalculate. destruct (degenerate (budget st) (stocks st)) eqn:E.
  - rewrite handleCalculateInvestment_degenerate by assumption. simpl.
    rewrite map_zeroResult_ids. tauto.
  - rewrite handleCalculateInvestment_regular by assumption. simpl.
    rewrite finalWalk_ids. unfold initResultsMap. rewrite init_keys_in.
    simpl. tauto.
Qed.

(** C2 (completeness and degenerate input).  For every budget and every
    stock list, the ids of the results of [handleCalculateInvestment] are
    exactly the ids of the stocks; when the ids are pairwise distinct there
    is one result per stock, in input order.  When [budget <= 0] or the
    list is empty, there is one result per stock, every result is
    zero-valued, both totals are 0, and the handler reports the condition
    with an alert. *)
Theorem allocate_completeness (st : AppState) :
  let st' := fst (onCalculate st) in
  (forall k, In k (map stockId (investmentResults st')) <-> In k (map id (stocks st)))
  /\ (NoDup (map id (stocks st)) ->
      map stockId (investmentResults st') = map id (stocks st))
  /\ ((budget st <=? 0)%js = true \/ stocks st = [] ->
      map stockId (investmentResults st') = map id (stocks st)
      /\ Forall zeroValued (investmentResults st')
      /\ totalInvestedAmount st' = 0%js
      /\ totalActualReturn st' = 0%js
      /\ snd (onCalculate st) = [PositiveBudgetAlert]).
Proof.
  cbv zeta. split; [apply calculate_ids|]. unfold onCalculate.
  destruct (degenerate (budget st) (stocks st)) eqn:E.
  - rewrite handleCalculateInvestment_degenerate by assumption. simpl.
    rewrite map_zeroResult_ids. repeat split; trivial.
    apply map_zeroResult_zero.
  - rewrite handleCalculateInvestment_regular by assumption. simpl.
    rewrite finalWalk_ids. unfold initResultsMap. split.
    + intros Hnd. now rewrite init_keys_exact.
    + intros H. apply degenerate_iff in H. congruence.
Qed.

Lemma allocate_completeness_witness :
  NoDup (map id (stocks (mkState 0%js [stockA; stockB] [] 0%js 0%js)))
  /\ (budget (mkState 0%js [stockA; stockB] [] 0%js 0%js) <=? 0)%js = true
  /\ map stockId (investmentResults (allocate 0%js [stockA; stockB])) = ["A"; "B"]
  /\ Forall zeroValued (investmentResults (allocate 0%js [stockA; stockB]))
  /\ totalInvestedAmount (allocate 0%js [stockA; stockB]) = 0%js
  /\ totalActualReturn (allocate 0%js [stockA; stockB]) = 0%js.
Proof.
  assert (Hnd : NoDup (map id (stocks (mkState 0%js [stockA; stockB] [] 0%js 0%js)))).
  { simpl. constructor; [|constructor; [|constructor]]; simpl.
    - intros [H|[]]; discriminate H.
    - intros []. }
  assert (Hb : (budget (mkState 0%js [stockA; stockB] [] 0%js 0%js) <=? 0)%js = true)
    by reflexivity.
  split; [exact Hnd|]. split; [exact Hb|].
  destruct (allocate_completeness (mkState 0%js [stockA; stockB] [] 0%js 0%js))
    as (_ & Hone & Hzero).
  destruct (Hzero (or_introl Hb)) as (_ & Hz & Hti & Htr & _).
  split; [exact (Hone Hnd)|]. split; [exact Hz|]. split; [exact Hti|exact Htr].
Defined.

(** ** The budget bound *)

Lemma Qc_zero : Q2Qc (inject_Z 0) = 0%Qc.
Proof. reflexivity. Qed.

Lemma sumInvested_from (rs : list InvestmentResult) (a : Qc) :
  Forall nonneg_amount rs ->
  fold_left (fun sum res => (sum + investedAmount res)%js) rs (Fin a) =
  Fin (a + sumQ rs).
Proof.
  revert a. induction rs as [|r rs IH]; intros a H; simpl.
  - f_equal. ring.
  - inversion H as [|? ? [q [Hq _]] Hrs]; subst.
    rewrite Hq. simpl. rewrite IH by assumption. f_equal. ring.
Qed.

Lemma sumInvested_sumQ (rs : list InvestmentResult) :
  Forall nonneg_amount rs -> sumInvested rs = Fin (sumQ rs).
Proof.
  intros H. unfold sumInvested, of_Z. rewrite Qc_zero, sumInvested_from by assumption.
  f_equal. ring.
Qed.

Lemma sumQ_set (m : ResultsMap) k old new :
  map_get m k = Some old ->
  sumQ (map_values (map_set m k new)) =
  (sumQ (map_values m) - amountQ (investedAmount old) + amountQ (investedAmount new))%Qc.
Proof.
  induction m as [|[k' v'] m IH]; simpl; [discriminate|].
  destruct (String.eqb k' k) eqn:E; simpl.
  - intros [= ->]. ring.
  - intros H. rewrite IH by assumption. ring.
Qed.

Lemma floor_shares (c p : Qc) :
  (0 < p)%Qc -> (0 <= c)%Qc ->
  let n := Q2Qc (inject_Z (Qfloor (c / p)%Qc)) in
  (0 <= n * p)%Qc /\ (n * p <= c)%Qc.
Proof.
  intros Hp Hc n.
  destruct c as [c Hcc], p as [p Hpc].
  unfold Qclt, Qcle in *. cbn [this] in Hp, Hc.
  change (this 0%Qc) with 0%Q in *.
  set (x := (Qcmake c Hcc / Qcmake p Hpc)%Qc) in *.
  assert (Hx : (this x == c / p)%Q).
  { unfold x, Qcdiv, Qcmult, Qcinv, Q2Qc. cbn [this]. rewrite !Qred_correct.
    reflexivity. }
  assert (Hn : (this n == inject_Z (Qfloor (this x)))%Q).
  { unfold n, Q2Qc. cbn [this]. apply Qred_correct. }
  assert (Hnp : (this (n * Qcmake p Hpc)%Qc == this n * p)%Q).
  { unfold Qcmult, Q2Qc. cbn [this]. apply Qred_correct. }
  assert (Hq : (0 <= c / p)%Q).
  { apply Qle_shift_div_l; [assumption|]. lra. }
  assert (H0 : (0 <= inject_Z (Qfloor (this x)))%Q).
  { change 0%Q with (inject_Z 0). rewrite <- Zle_Qle.
    change 0%Z with (Qfloor (inject_Z 0)). apply Qfloor_resp_le.
    rewrite Hx. exact Hq. }
  assert (H1 : (inject_Z (Qfloor (this x)) <= c / p)%Q).
  { rewrite <- Hx. apply Qfloor_le. }
  cbn [this]. rewrite Hnp, Hn. split.
  - apply Qmult_le_0_compat; [assumption|]. lra.
  - apply Qle_trans with ((c / p) * p)%Q.
    + apply Qmult_le_compat_r; [assumption|]. lra.
    + assert (E : (c / p * p == c)%Q) by (field; lra). rewrite E. apply Qle_refl.
Qed.

Lemma Forall_values_set (P : InvestmentResult -> Prop) (m : ResultsMap) k v :
  Forall P (map_values m) -> P v -> Forall P (map_values (map_set m k v)).
Proof.
  intros Hm Hv. apply Forall_forall. intros r Hr.
  apply in_map_iff in Hr. destruct Hr as [[k' r'] [<- Hin]].
  destruct (map_set_values_in _ _ _ _ Hin) as [H|[= -> ->]]; [|exact Hv].
  apply (proj1 (Forall_forall _ _) Hm). now apply (in_map snd) in H.
Qed.

Lemma Forall_values_get (P : InvestmentResult -> Prop) (m : ResultsMap) k v :
  Forall P (map_values m) -> map_get m k = Some v -> P v.
Proof.
  intros Hm Hget. apply (proj1 (Forall_forall _ _) Hm).
  apply map_get_in_values in Hget. now apply (in_map snd) in Hget.
Qed.

Lemma div_pos (c p : Qc) : (0 < p)%Qc -> (Fin c / Fin p)%js = Fin (c / p).
Proof.
  intros Hp. unfold div. destruct (Qc_eqb p 0) eqn:E; [|reflexivity].
  apply Qc_eqb_eq in E. subst. exfalso. unfold Qclt in Hp. lra.
Qed.

(** The amount one round invests is finite, non-negative and within the
    running budget. *)
Lemma buy_invested (c : Qc) (s : Stock) :
  valid_stock s -> (0 <= c)%Qc ->
  exists i, snd (fst (buy (Fin c) s)) = Fin i /\ (0 <= i)%Qc /\ (i <= c)%Qc.
Proof.
  intros (p & e & Hp & He & Hp0 & He0) Hc. unfold buy. rewrite Hp, He.
  destruct (Fin c >=? Fin p)%js.
  - rewrite div_pos by assumption. simpl.
    destruct (floor_shares c p Hp0 Hc) as [H1 H2]. eauto.
  - simpl. exists c. repeat split; trivial. apply Qcle_refl.
Qed.

Lemma invest_fields (w : Walk) (s : Stock) :
  let i := snd (fst (buy (currentBudget w) s)) in
  currentBudget (invest w s) = (currentBudget w - i)%js /\
  currentTotalInvestedAmount (invest w s) = (currentTotalInvestedAmount w + i)%js.
Proof. unfold invest. destruct (buy (currentBudget w) s) as [[f i] a]. now split. Qed.

Lemma record_buy_sumQ (m : ResultsMap) s f a (i : Qc) :
  Forall nonneg_amount (map_values m) -> (0 <= i)%Qc ->
  Forall nonneg_amount (map_values (record_buy m s f (Fin i) a)) /\
  (sumQ (map_values (record_buy m s f (Fin i) a)) <= sumQ (map_values m) + i)%Qc /\
  (forall old, map_get m (id s) = Some old -> investedAmount old = 0%js ->
     sumQ (map_values (record_buy m s f (Fin i) a)) = (sumQ (map_values m) + i)%Qc).
Proof.
  intros Hm Hi. unfold record_buy.
  destruct (map_get m (id s)) as [old|] eqn:E.
  - destruct (Forall_values_get _ _ _ _ Hm E) as [q [Hq Hq0]].
    split; [|split].
    + apply Forall_values_set; [assumption|]. exists i. now split.
    + rewrite (sumQ_set _ _ _ _ E). simpl. rewrite Hq. simpl. qc_lra.
    + intros old' [= <-] Hz. rewrite (sumQ_set _ _ _ _ E), Hz.
      change (amountQ 0%js) with 0%Qc. cbn [investedAmount amountQ]. ring.
  - split; [assumption|split].
    + qc_lra.
    + discriminate.
Qed.

Lemma invest_budget_inv (b : Qc) (w : Walk) (s : Stock) :
  valid_stock s -> budget_inv b w -> budget_inv b (invest w s).
Proof.
  intros Hs (c & t & Hc & Ht & Hc0 & Hsum & Hfin & Hle).
  destruct (invest_fields w s) as [Eb Et]. rewrite Hc in *.
  destruct (buy_invested c s Hs Hc0) as (i & Hi & Hi0 & Hic).
  rewrite Hi in Eb, Et. rewrite Ht in Et.
  exists (c - i)%Qc, (t + i)%Qc.
  rewrite invest_resultsMap, Hc, Hi.
  destruct (record_buy_sumQ (resultsMap w) s (fst (fst (buy (Fin c) s)))
              (snd (buy (Fin c) s)) i Hfin Hi0) as (H1 & H2 & _).
  repeat split; trivial.
  - qc_lra.
  - rewrite <- Hsum. ring.
  - qc_lra.
Qed.

(** ** The sort returns a permutation of its input *)

Lemma sort_insert_perm {A : Type} (cmp : A -> A -> number) (x : A) (l : list A) :
  Permutation (sort_insert cmp x l) (x :: l).
Proof.
  induction l as [|y l IH]; cbn [sort_insert].
  - apply Permutation_refl.
  - destruct (cmp x y >? 0)%js.
    + eapply perm_trans; [apply perm_skip, IH|apply perm_swap].
    + apply Permutation_refl.
Qed.

Lemma sort_perm {A : Type} (cmp : A -> A -> number) (l : list A) :
  Permutation (sort cmp l) l.
Proof.
  induction l as [|x l IH]; cbn [sort].
  - apply perm_nil.
  - eapply perm_trans; [apply sort_insert_perm|now apply perm_skip].
Qed.

Lemma map_get_of_key (m : ResultsMap) k :
  In k (map_keys m) -> exists v, map_get m k = Some v.
Proof.
  intros H. destruct (map_get m k) as [v|] eqn:E; [eauto|].
  exfalso. revert H E. induction m as [|[k' v'] m IH]; simpl; [tauto|].
  destruct (String.eqb k' k) eqn:E; [discriminate|].
  apply String.eqb_neq in E. intros [H|H]; [congruence|auto].
Qed.

Lemma init_zeroValued (ss : list Stock) (m0 : ResultsMap) :
  Forall zeroValued (map_values m0) ->
  Forall zeroValued
    (map_values (fold_left (fun m stock => map_set m (id stock) (zeroResult stock)) ss m0)).
Proof.
  revert m0. induction ss as [|s ss IH]; intro m0; simpl; [trivial|].
  intros H. apply IH. apply Forall_values_set; [assumption|]. repeat split.
Qed.

Lemma init_get (ss : list Stock) (s : Stock) :
  In s ss ->
  exists r, map_get (initResultsMap ss) (id s) = Some r /\ zeroValued r.
Proof.
  intros Hin.
  destruct (map_get_of_key (initResultsMap ss) (id s)) as [r Hr].
  - apply init_keys_in. right. now apply in_map.
  - exists r. split; [assumption|].
    eapply Forall_values_get; [|eassumption].
    apply init_zeroValued. constructor.
Qed.

Lemma zeroValued_nonneg (r : InvestmentResult) : zeroValued r -> nonneg_amount r.
Proof.
  intros (_ & H & _). exists 0%Qc. split; [exact H|apply Qcle_refl].
Qed.

Lemma sumQ_zero (rs : list InvestmentResult) :
  Forall zeroValued rs -> sumQ rs = 0%Qc.
Proof.
  induction 1 as [|r rs (_ & H & _) _ IH]; simpl; [reflexivity|].
  rewrite H, IH. change (amountQ 0%js) with 0%Qc. ring.
Qed.

Lemma record_buy_get_other (m : ResultsMap) s f i a k :
  id s <> k -> map_get (record_buy m s f i a) k = map_get m k.
Proof.
  intros Hne. unfold record_buy.
  destruct (map_get m (id s)); [|reflexivity].
  now apply map_get_set_other.
Qed.

Lemma budget_inv_init (b : Qc) (ss : list Stock) :
  (0 <= b)%Qc -> budget_inv b (mkWalk (Fin b) 0%js 0%js (initResultsMap ss)).
Proof.
  intros Hb. exists b, 0%Qc. simpl.
  assert (Hz : Forall zeroValued (map_values (initResultsMap ss)))
    by (apply init_zeroValued; constructor).
  repeat split; trivial.
  - ring.
  - eapply Forall_impl; [|exact Hz]. apply zeroValued_nonneg.
  - rewrite sumQ_zero by assumption. apply Qcle_refl.
Qed.

Lemma walk_budget_inv (b : Qc) (l : list Stock) (w : Walk) :
  Forall valid_stock l -> budget_inv b w -> budget_inv b (walk l w).
Proof.
  intros Hl Hw.
  destruct (walk_invariant
              (fun rest w' => Forall valid_stock rest /\ budget_inv b w'))
    with (l := l) (w := w) as [rest [_ H]]; auto.
  intros s rest w' [Hv Hinv] _. inversion Hv; subst.
  split; [assumption|]. now apply invest_budget_inv.
Qed.

Lemma invest_exact_inv (b : Qc) (s : Stock) (rest : list Stock) (w : Walk) :
  exact_inv b (s :: rest) w -> exact_inv b rest (invest w s).
Proof.
  intros (Hv & Hnd & Hinv & Hzero & Hsum).
  inversion Hv as [|? ? Hs Hrest]; subst.
  simpl in Hnd. inversion Hnd as [|? ? Hnotin Hnd']; subst.
  pose proof (invest_budget_inv b w s Hs Hinv) as Hinv'.
  destruct Hinv as (c & t & Hc & Ht & Hc0 & _ & Hfin & _).
  destruct (buy_invested c s Hs Hc0) as (i & Hi & Hi0 & _).
  destruct (invest_fields w s) as [_ Et]. rewrite Hc, Hi in Et.
  repeat split; trivial.
  - intros s' Hs'. rewrite invest_resultsMap, record_buy_get_other.
    + apply Hzero. now right.
    + intros E. apply Hnotin. rewrite E. now apply in_map.
  - destruct (Hzero s (or_introl eq_refl)) as (old & Hold & Hz).
    rewrite Et, invest_resultsMap, Hc, Hi, Hsum.
    destruct (record_buy_sumQ (resultsMap w) s (fst (fst (buy (Fin c) s)))
                (snd (buy (Fin c) s)) i Hfin Hi0) as (_ & _ & Hexact).
    rewrite (Hexact old Hold Hz). reflexivity.
Qed.

Lemma walk_exact_inv (b : Qc) (l : list Stock) (w : Walk) :
  exact_inv b l w ->
  currentTotalInvestedAmount (walk l w) =
  Fin (sumQ (map_values (resultsMap (walk l w)))).
Proof.
  intros H.
  destruct (walk_invariant (exact_inv b)) with (l := l) (w := w)
    as [rest (_ & _ & _ & _ & Hsum)]; auto.
  intros s rest w' Hw' _. now apply invest_exact_inv.
Qed.

Lemma valid_sorted (ss : list Stock) :
  Forall valid_stock ss -> Forall valid_stock (sortedStocks ss).
Proof.
  intros H. apply Forall_forall. intros s Hs.
  apply (proj1 (Forall_forall _ _) H).
  eapply Permutation_in; [apply sort_perm|exact Hs].
Qed.

(** The fixtures are well-formed. *)
Lemma valid_stockA : valid_stock stockA.
Proof.
  exists (Q2Qc (inject_Z 100)), (Q2Qc (inject_Z 10)).
  repeat split; try reflexivity. discriminate.
Qed.

Lemma valid_stockB : valid_stock stockB.
Proof.
  exists (Q2Qc (inject_Z 50)), (Q2Qc (inject_Z 10)).
  repeat split; try reflexivity. discriminate.
Qed.

Lemma valid_tieX : valid_stock tieX.
Proof.
  exists (Q2Qc (inject_Z 100)), (Q2Qc (inject_Z 10)).
  repeat split; try reflexivity. discriminate.
Qed.

Lemma valid_tieY : valid_stock tieY.
Proof.
  exists (Q2Qc (inject_Z 50)), (Q2Qc (inject_Z 5)).
  repeat split; try reflexivity. discriminate.
Qed.

Lemma NoDup_two (a b : string) : a <> b -> NoDup [a; b].
Proof.
  intros H. constructor; [|constructor; [|constructor]]; simpl; [|tauto].
  intros [E|[]]. congruence.
Qed.

Lemma NoDup_three (a b c : string) :
  a <> b -> a <> c -> b <> c -> NoDup [a; b; c].
Proof.
  intros Hab Hac Hbc. constructor; [|now apply NoDup_two].
  intros [E|[E|[]]]; congruence.
Qed.

(** The budget bound of the allocation when no operation rounds: for a
    finite budget [b > 0] and stocks with finite, strictly positive prices
    and finite, non-negative expected returns, the sum of [investedAmount]
    over the results is at most the budget, and so is the total; with
    pairwise distinct ids the total equals that sum. *)
Lemma budget_bound_exact (st : AppState) (b : Qc) :
  budget st = Fin b -> (0 < b)%Qc -> Forall valid_stock (stocks st) ->
  let st' := fst (onCalculate st) in
  (sumInvested (investmentResults st') <=? budget st)%js = true
  /\ (totalInvestedAmount st' <=? budget st)%js = true
  /\ (NoDup (map id (stocks st)) ->
      totalInvestedAmount st' = sumInvested (investmentResults st')).
Proof.
  intros Hb Hb0 Hv. unfold onCalculate.
  destruct (degenerate (budget st) (stocks st)) eqn:E.
  - rewrite handleCalculateInvestment_degenerate by assumption. simpl.
    assert (Hz : Forall zeroValued (map zeroResult (stocks st))).
    { apply Forall_forall. intros r Hr. apply in_map_iff in Hr.
      destruct Hr as [s [<- _]]. repeat split. }
    rewrite sumInvested_sumQ, sumQ_zero, Hb; trivial.
    + repeat split; trivial; apply Qc_leb_le; apply Qclt_le_weak; exact Hb0.
    + eapply Forall_impl; [|exact Hz]. apply zeroValued_nonneg.
  - rewrite handleCalculateInvestment_regular by assumption. simpl.
    rewrite Hb. unfold finalWalk.
    set (w0 := mkWalk (Fin b) 0%js 0%js (initResultsMap (stocks st))).
    assert (H0 : budget_inv b w0)
      by (apply budget_inv_init, Qclt_le_weak, Hb0).
    pose proof (walk_budget_inv b _ w0 (valid_sorted _ Hv) H0)
      as (c & t & Hc & Ht & Hc0 & Hsum & Hfin & Hle).
    rewrite sumInvested_sumQ by assumption. rewrite Ht.
    split; [|split].
    + apply Qc_leb_le. subst b. clear - Hle Hc0. clearbody w0. qc_lra.
    + apply Qc_leb_le. subst b. clear - Hc0. qc_lra.
    + intros Hnd. rewrite <- Ht. apply walk_exact_inv with (b := b).
      repeat split; trivial.
      * now apply valid_sorted.
      * eapply Permutation_NoDup; [|exact Hnd].
        apply Permutation_map, Permutation_sym, sort_perm.
      * intros s Hs. destruct (init_get (stocks st) s) as (r & Hr & _ & Hz & _).
        -- eapply Permutation_in; [apply sort_perm|exact Hs].
        -- eauto.
      * simpl. rewrite sumQ_zero; [reflexivity|].
        apply init_zeroValued. constructor.
Qed.

(** ** The budget bound in binary64 *)

(** *** Rounding *)

Lemma pow2_pos (e : Z) : (0 < Double.pow2 e)%Q.
Proof. apply Qpower_0_lt. reflexivity. Qed.

Lemma pow2_add (a b : Z) : (Double.pow2 (a + b) == Double.pow2 a * Double.pow2 b)%Q.
Proof. apply Qpower_plus. discriminate. Qed.

Lemma pow2_Z (e : Z) : (0 <= e)%Z -> (Double.pow2 e == inject_Z (2 ^ e))%Q.
Proof. intros H. symmetry. apply (Zpower_Qpower 2 e H). Qed.

Lemma nearest_even_le (y : Q) (N : Z) :
  (y <= inject_Z N)%Q -> (Double.nearest_even y <= N)%Z.
Proof.
  intros H. unfold Double.nearest_even.
  pose proof (Qfloor_le y) as Hf.
  assert (HfN : (Qfloor y <= N)%Z) by (rewrite Zle_Qle; lra).
  assert (Hne : (1 # 2 <= y - inject_Z (Qfloor y))%Q -> (Qfloor y + 1 <= N)%Z).
  { intros Hh. assert (Qfloor y <> N) by (intros E; rewrite E in Hh; lra). lia. }
  destruct (Qcompare_spec (y - inject_Z (Qfloor y)) (1 # 2)) as [E|E|E].
  - destruct (Z.even (Qfloor y)); [exact HfN|]. apply Hne. lra.
  - exact HfN.
  - apply Hne. lra.
Qed.

Lemma nearest_even_ge (y : Q) (N : Z) :
  (inject_Z N <= y)%Q -> (N <= Double.nearest_even y)%Z.
Proof.
  intros H. unfold Double.nearest_even.
  assert (HfN : (N <= Qfloor y)%Z).
  { rewrite <- (Qfloor_Z N). now apply Qfloor_resp_le. }
  destruct (y - inject_Z (Qfloor y) ?= 1 # 2)%Q; [destruct (Z.even (Qfloor y))| |]; lia.
Qed.

Lemma exponent_le (x : Q) : (0 < x)%Q -> (Double.pow2 (Double.exponent x) <= x)%Q.
Proof.
  intros Hx. unfold Double.exponent.
  set (e := (Z.log2 (Qnum x) - Z.log2 (Z.pos (Qden x)))%Z).
  destruct (Qle_bool (Double.pow2 e) x) eqn:E; [now apply Qle_bool_iff|].
  destruct x as [n d]. cbn [Qnum Qden] in *.
  assert (Hn : (0 < n)%Z).
  { unfold Qlt in Hx. cbn [Qnum Qden] in Hx. rewrite Z.mul_0_l, Z.mul_1_r in Hx. exact Hx. }
  destruct (Z.log2_spec n Hn) as [Hn1 _].
  destruct (Z.log2_spec (Z.pos d) (Pos2Z.is_pos d)) as [_ Hd2].
  pose proof (Z.log2_nonneg n) as Hln. pose proof (Z.log2_nonneg (Z.pos d)) as Hld.
  replace (e - 1)%Z with (Z.log2 n - Z.succ (Z.log2 (Z.pos d)))%Z by (unfold e; lia).
  unfold Double.pow2. rewrite Qpower_minus by discriminate.
  fold (Double.pow2 (Z.log2 n)). fold (Double.pow2 (Z.succ (Z.log2 (Z.pos d)))).
  rewrite !pow2_Z by lia.
  set (A := (2 ^ Z.log2 n)%Z) in *. set (B := (2 ^ Z.succ (Z.log2 (Z.pos d)))%Z) in *.
  assert (HB : (0 < B)%Z) by lia.
  assert (HA : (0 <= A)%Z) by (unfold A; apply Z.pow_nonneg; lia).
  rewrite <- (Z2Pos.id B HB). rewrite <- Qmake_Qdiv.
  unfold Qle. cbn [Qnum Qden]. rewrite Z2Pos.id by exact HB. nia.
Qed.

Lemma ulp_pos (x : Q) : (0 < Double.ulp x)%Q.
Proof. apply pow2_pos. Qed.

Lemma round_pos_grid_le (x : Q) (N : Z) :
  (x <= inject_Z N * Double.ulp x)%Q ->
  (Double.round_pos x <= inject_Z N * Double.ulp x)%Q.
Proof.
  intros H. unfold Double.round_pos. pose proof (ulp_pos x) as Hu.
  apply Qmult_le_compat_r; [|lra]. rewrite <- Zle_Qle.
  apply nearest_even_le. now apply Qle_shift_div_r.
Qed.

Lemma round_pos_grid_ge (x : Q) (N : Z) :
  (inject_Z N * Double.ulp x <= x)%Q ->
  (inject_Z N * Double.ulp x <= Double.round_pos x)%Q.
Proof.
  intros H. unfold Double.round_pos. pose proof (ulp_pos x) as Hu.
  apply Qmult_le_compat_r; [|lra]. rewrite <- Zle_Qle.
  apply nearest_even_ge. now apply Qle_shift_div_l.
Qed.

Lemma ulp_dyadic (x : Q) (j : Z) :
  (0 < x)%Q -> (0 <= j <= 1074)%Z -> (x < Double.pow2 (53 - j))%Q ->
  exists k, (0 <= k)%Z /\ (Double.pow2 (- j) == inject_Z (2 ^ k) * Double.ulp x)%Q.
Proof.
  intros Hx Hj Hlt. unfold Double.ulp.
  assert (He : (Double.exponent x < 53 - j)%Z).
  { apply (Qpower_lt_compat_l_inv 2); [|reflexivity].
    apply Qle_lt_trans with x; [now apply exponent_le|exact Hlt]. }
  set (s := Z.max (Double.exponent x - 52) (-1074)).
  assert (Hs : (s <= - j)%Z) by (unfold s; lia).
  exists (- j - s)%Z. split; [lia|].
  rewrite <- pow2_Z by lia. rewrite <- pow2_add. now replace (- j - s + s)%Z with (- j)%Z by lia.
Qed.

Lemma round_pos_between (x : Q) (lo hi j : Z) :
  (0 < x)%Q -> (0 <= j <= 1074)%Z -> (hi < 2 ^ 53)%Z ->
  (inject_Z lo * Double.pow2 (- j) <= x)%Q -> (x <= inject_Z hi * Double.pow2 (- j))%Q ->
  (inject_Z lo * Double.pow2 (- j) <= Double.round_pos x)%Q /\
  (Double.round_pos x <= inject_Z hi * Double.pow2 (- j))%Q.
Proof.
  intros Hx Hj Hhi Hlo Hup.
  assert (Hlt : (x < Double.pow2 (53 - j))%Q).
  { replace (53 - j)%Z with (53 + - j)%Z by lia. rewrite pow2_add.
    apply Qle_lt_trans with (inject_Z hi * Double.pow2 (- j))%Q; [exact Hup|].
    apply Qmult_lt_compat_r; [apply pow2_pos|].
    rewrite pow2_Z by lia. now rewrite <- Zlt_Qlt. }
  destruct (ulp_dyadic x j Hx Hj Hlt) as (k & Hk & E).
  rewrite E in *. rewrite !Qmult_assoc, <- !inject_Z_mult in *.
  split; [now apply round_pos_grid_ge|now apply round_pos_grid_le].
Qed.

Lemma below_overflow (r : Q) (z : Z) :
  (r <= inject_Z z)%Q -> (z <= 2 ^ 53)%Z -> Qle_bool (Double.pow2 1024) r = false.
Proof.
  intros Hr Hz. destruct (Qle_bool (Double.pow2 1024) r) eqn:E; [|reflexivity].
  apply Qle_bool_iff in E. exfalso.
  assert (H : (Double.pow2 53 < Double.pow2 1024)%Q)
    by (apply Qpower_lt_compat_l; [lia|reflexivity]).
  rewrite pow2_Z in H by lia. rewrite Zle_Qle in Hz. lra.
Qed.

Lemma round_whole (q : Qc) (z : Z) :
  (q == inject_Z z)%Q -> (0 <= z < 2 ^ 53)%Z -> Double.round (Fin q) = of_Z z.
Proof.
  intros E Hz. unfold Double.round, of_Z.
  destruct (Qcompare_spec 0 q) as [H|H|H].
  - f_equal. apply Qc_is_canon. cbn [this Q2Qc]. rewrite Qred_correct. exact E.
  - assert (Hp : (Double.pow2 (- 0) == 1)%Q) by reflexivity.
    destruct (round_pos_between q z z 0 H) as [H1 H2]; try lia; try (rewrite Hp; lra).
    rewrite Hp in H1, H2.
    rewrite (below_overflow _ z) by (lra || lia).
    f_equal. apply Q2Qc_eq_iff. lra.
  - exfalso. assert (0 <= inject_Z z)%Q by (change 0%Q with (inject_Z 0); rewrite <- Zle_Qle; lia).
    lra.
Qed.

Lemma Qfloor_between (r : Q) (k : Z) :
  (inject_Z k <= r)%Q -> (r < inject_Z k + 1)%Q -> Qfloor r = k.
Proof.
  intros H1 H2. apply Z.le_antisymm.
  - apply Z.lt_succ_r. rewrite Zlt_Qlt. unfold Z.succ. rewrite inject_Z_plus.
    apply Qle_lt_trans with r; [apply Qfloor_le|exact H2].
  - rewrite <- (Qfloor_Z k). now apply Qfloor_resp_le.
Qed.

Lemma floor_round_div (a b : Z) (q : Qc) :
  (q == inject_Z a / inject_Z b)%Q -> (0 <= a <= 2 ^ 51)%Z -> (0 < b <= 2 ^ 51)%Z ->
  floor (Double.round (Fin q)) = of_Z (a / b).
Proof.
  intros E Ha Hb.
  assert (Hb' : (0 < inject_Z b)%Q) by (change 0%Q with (inject_Z 0); rewrite <- Zlt_Qlt; lia).
  set (k := (a / b)%Z).
  assert (Hk1 : (b * k <= a)%Z) by (apply Z.mul_div_le; lia).
  assert (Hk2 : (a < b * Z.succ k)%Z) by (apply Z.mul_succ_div_gt; lia).
  assert (Hk0 : (0 <= k)%Z) by (apply Z.div_pos; lia).
  assert (Hlo : (inject_Z k <= q)%Q).
  { rewrite E. apply Qle_shift_div_l; [exact Hb'|].
    rewrite <- inject_Z_mult, <- Zle_Qle. lia. }
  unfold Double.round.
  destruct (Qcompare_spec 0 q) as [H|H|H].
  - cbn [floor]. f_equal.
    assert (Hq : Qfloor q = 0%Z) by (rewrite <- H; reflexivity).
    rewrite Hq. destruct (Z.eq_dec k 0) as [->|]; [reflexivity|].
    exfalso. assert (1 <= inject_Z k)%Q by (change 1%Q with (inject_Z 1); rewrite <- Zle_Qle; lia).
    lra.
  - set (j := Z.succ (Z.log2 b)).
    destruct (Z.log2_spec b (proj1 Hb)) as [Hj1 Hj2]. fold j in Hj2.
    assert (Hl : (0 <= Z.log2 b < 52)%Z).
    { split; [apply Z.log2_nonneg|]. apply Z.log2_lt_pow2; lia. }
    assert (Hj : (0 <= j <= 1074)%Z) by (unfold j; lia).
    assert (H2j : (2 ^ j = 2 * 2 ^ Z.log2 b)%Z).
    { unfold j. apply Z.pow_succ_r. lia. }
    assert (Hp : (Double.pow2 (- j) * inject_Z (2 ^ j) == 1)%Q).
    { rewrite <- pow2_Z by lia. rewrite <- pow2_add.
      now replace (- j + j)%Z with 0%Z by lia. }
    pose proof (pow2_pos (- j)) as Hpp.
    assert (H2jpos : (0 < inject_Z (2 ^ j))%Q).
    { change 0%Q with (inject_Z 0). rewrite <- Zlt_Qlt. lia. }
    assert (Hpb : (Double.pow2 (- j) * inject_Z b <= 1)%Q).
    { rewrite <- Hp. apply Qmult_le_l; [exact Hpp|]. rewrite <- Zle_Qle. lia. }
    destruct (round_pos_between q (k * 2 ^ j) ((k + 1) * 2 ^ j - 1) j H Hj) as [H1 H2].
    + nia.
    + rewrite inject_Z_mult, <- Qmult_assoc, (Qmult_comm (inject_Z (2 ^ j))), Hp. lra.
    + unfold Zminus. rewrite inject_Z_plus, inject_Z_mult, inject_Z_plus.
      rewrite Qmult_plus_distr_l, <- Qmult_assoc, (Qmult_comm (inject_Z (2 ^ j))), Hp.
      rewrite E. apply Qle_shift_div_r; [exact Hb'|].
      assert (Hab : (inject_Z a + 1 <= (inject_Z k + 1) * inject_Z b)%Q).
      { change 1%Q with (inject_Z 1). rewrite <- !inject_Z_plus, <- inject_Z_mult, <- Zle_Qle.
        lia. }
      change (inject_Z (- (1))) with (- (1))%Q. change (inject_Z 1) with 1%Q.
      set (p := Double.pow2 (- j)) in *. clearbody p.
      set (B := inject_Z b) in *. set (K := inject_Z k) in *. set (A := inject_Z a) in *.
      clearbody A B K. clear - Hab Hpb. nra.
    + rewrite inject_Z_mult, <- Qmult_assoc, (Qmult_comm (inject_Z (2 ^ j))), Hp in H1.
      unfold Zminus in H2. rewrite inject_Z_plus, inject_Z_mult, inject_Z_plus in H2.
      rewrite Qmult_plus_distr_l, <- Qmult_assoc, (Qmult_comm (inject_Z (2 ^ j))), Hp in H2.
      change (inject_Z (- (1))) with (- (1))%Q in H2. change (inject_Z 1) with 1%Q in H2.
      rewrite (below_overflow _ (k + 1)).
      * cbn [floor]. f_equal. rewrite (Qfloor_comp _ (Double.round_pos q)) by apply Qred_correct.
        apply Qfloor_between; lra.
      * rewrite inject_Z_plus. change (inject_Z 1) with 1%Q. lra.
      * nia.
  - exfalso. assert (0 <= inject_Z k)%Q by (change 0%Q with (inject_Z 0); rewrite <- Zle_Qle; lia).
    lra.
Qed.

(** *** Whole amounts *)

Lemma this_of_Z (z : Z) : (Q2Qc (inject_Z z) == inject_Z z)%Q.
Proof. apply Qred_correct. Qed.

Lemma wholeAmount_of_Z (z : Z) : wholeAmount (of_Z z) = z.
Proof.
  unfold wholeAmount, of_Z. rewrite (Qfloor_comp _ _ (this_of_Z z)). apply Qfloor_Z.
Qed.


Lemma of_Z_leb (a b : Z) : (of_Z a <=? of_Z b)%js = (a <=? b)%Z.
Proof.
  unfold of_Z. cbn [leb]. unfold Qc_leb. apply eq_true_iff_eq.
  rewrite Qle_bool_iff, Z.leb_le, !this_of_Z. rewrite <- Zle_Qle. reflexivity.
Qed.

Lemma of_Z_nonzero (b : Z) : (0 < b)%Z -> Qc_eqb (Q2Qc (inject_Z b)) 0 = false.
Proof.
  intros H. unfold Qc_eqb. destruct (Qeq_bool (Q2Qc (inject_Z b)) 0%Qc) eqn:E; [|reflexivity].
  apply Qeq_bool_iff in E. rewrite this_of_Z in E. exfalso.
  unfold Qeq in E. cbn in E. lia.
Qed.

Lemma double_add_whole (a b : Z) :
  (0 <= a + b < 2 ^ 53)%Z -> Double.add (of_Z a) (of_Z b) = of_Z (a + b).
Proof.
  intros H. unfold Double.add, of_Z at 1 2. cbn [add]. apply round_whole; [|exact H].
  unfold Qcplus. cbn [this Q2Qc]. rewrite !Qred_correct, inject_Z_plus. reflexivity.
Qed.

Lemma double_sub_whole (a b : Z) :
  (0 <= a - b < 2 ^ 53)%Z -> Double.sub (of_Z a) (of_Z b) = of_Z (a - b).
Proof.
  intros H. unfold Double.sub, sub, of_Z at 1 2. cbn [neg add]. apply round_whole; [|exact H].
  unfold Qcplus, Qcopp. cbn [this Q2Qc]. rewrite !Qred_correct.
  unfold Z.sub. rewrite inject_Z_plus, inject_Z_opp. reflexivity.
Qed.

Lemma double_mul_whole (a b : Z) :
  (0 <= a * b < 2 ^ 53)%Z -> Double.mul (of_Z a) (of_Z b) = of_Z (a * b).
Proof.
  intros H. unfold Double.mul, of_Z at 1 2. cbn [mul]. apply round_whole; [|exact H].
  unfold Qcmult. cbn [this Q2Qc]. rewrite !Qred_correct, inject_Z_mult. reflexivity.
Qed.

Lemma double_floor_div (a b : Z) :
  (0 <= a <= 2 ^ 51)%Z -> (0 < b <= 2 ^ 51)%Z ->
  floor (Double.div (of_Z a) (of_Z b)) = of_Z (a / b).
Proof.
  intros Ha Hb. unfold Double.div, of_Z at 1 2. cbn [div].
  rewrite of_Z_nonzero by lia. apply floor_round_div; trivial.
  unfold Qcdiv, Qcmult, Qcinv. cbn [this Q2Qc]. rewrite !Qred_correct. reflexivity.
Qed.


Lemma double_invest_fields (w : Walk) (s : Stock) :
  let i := snd (fst (Double.buy (currentBudget w) s)) in
  currentBudget (Double.invest w s) = Double.sub (currentBudget w) i /\
  currentTotalInvestedAmount (Double.invest w s) =
    Double.add (currentTotalInvestedAmount w) i.
Proof.
  unfold Double.invest. destruct (Double.buy (currentBudget w) s) as [[f i] a]. now split.
Qed.

Lemma double_invest_resultsMap (w : Walk) (s : Stock) :
  resultsMap (Double.invest w s) =
  record_buy (resultsMap w) s
    (fst (fst (Double.buy (currentBudget w) s)))
    (snd (fst (Double.buy (currentBudget w) s)))
    (snd (Double.buy (currentBudget w) s)).
Proof.
  unfold Double.invest. destruct (Double.buy (currentBudget w) s) as [[f i] a]. reflexivity.
Qed.

Lemma double_walk_invariant (P : list Stock -> Walk -> Prop) :
  (forall s rest w, P (s :: rest) w -> (currentBudget w <=? 0)%js = false ->
                    P rest (Double.invest w s)) ->
  forall l w, P l w -> exists rest, P rest (Double.walk l w).
Proof.
  intros Hstep. induction l as [|s l IH]; intros w Hw; cbn [Double.walk].
  - now exists [].
  - destruct (currentBudget w <=? 0)%js eqn:E.
    + now exists (s :: l).
    + apply IH. now apply Hstep.
Qed.

Lemma double_regular (st : AppState) :
  degenerate (budget st) (stocks st) = false ->
  fst (Double.onCalculate st) =
  mkState (budget st) (stocks st)
          (map_values (resultsMap (Double.finalWalk (budget st) (stocks st))))
          (currentTotalInvestedAmount (Double.finalWalk (budget st) (stocks st)))
          (currentTotalReturn (Double.finalWalk (budget st) (stocks st))).
Proof.
  unfold degenerate, Double.onCalculate, Double.handleCalculateInvestment.
  intros ->. reflexivity.
Qed.










Lemma whole_sorted (ss : list Stock) :
  Forall whole_price ss -> Forall whole_price (Double.sortedStocks ss).
Proof.
  intros H. apply Forall_forall. intros s Hs.
  apply (proj1 (Forall_forall _ _) H).
  eapply Permutation_in; [apply sort_perm|exact Hs].
Qed.

Lemma double_degenerate (st : AppState) :
  degenerate (budget st) (stocks st) = true ->
  fst (Double.onCalculate st) =
  mkState (budget st) (stocks st) (map zeroResult (stocks st)) 0%js 0%js.
Proof.
  unfold degenerate, Double.onCalculate, Double.handleCalculateInvestment.
  intros ->. reflexivity.
Qed.




(** ** The greedy-ordering example *)

(** C3 (greedy ordering).  For A (price 100, return 10) and B (price 50,
    return 10) with budget 120, B is ranked first; B gets fraction 2,
    invested 100, return 10; A gets the remaining 20: fraction 0.2,
    invested 20, return 2; the totals are 120 and 12. *)
Theorem greedy_example (rs : list InvestmentResult) (ti tr : number) :
  let st := fst (onCalculate (mkState (of_Z 120) [stockA; stockB] rs ti tr)) in
  sortedStocks [stockA; stockB] = [stockB; stockA]
  /\ investmentResults st =
     [ mkResult "A" "A" (of_Q (2 # 10)) (of_Z 20) (of_Z 2);
       mkResult "B" "B" (of_Z 2) (of_Z 100) (of_Z 10) ]
  /\ totalInvestedAmount st = of_Z 120
  /\ totalActualReturn st = of_Z 12.
Proof.
  repeat split; vm_compute; number_eq.
Qed.

(** ** Order of the walk: efficiency descending, ties in input order *)

Lemma efficiency_valid (s : Stock) :
  valid_stock s -> efficiency s = Fin (effQ s).
Proof.
  intros (p & e & Hp & He & Hp0 & _). unfold effQ, efficiency.
  rewrite Hp, He, div_pos by assumption. reflexivity.
Qed.

Lemma compare_valid (x y : Stock) :
  valid_stock x -> valid_stock y ->
  (compareStocks x y >? 0)%js = Qc_ltb (effQ x) (effQ y).
Proof.
  intros Hx Hy. change (compareStocks x y) with (efficiency y - efficiency x)%js.
  rewrite (efficiency_valid x Hx), (efficiency_valid y Hy).
  unfold gtb, sub. cbn [neg add ltb of_Z].
  destruct (Qc_ltb (effQ x) (effQ y)) eqn:E.
  - apply Qc_ltb_lt in E. apply Qc_ltb_lt. rewrite Qc_zero. qc_lra.
  - apply Qc_ltb_ge in E. apply Qc_ltb_ge. rewrite Qc_zero. qc_lra.
Qed.

Lemma sub_self_not_positive (z : number) : (z - z >? 0)%js = false.
Proof.
  destruct z as [| | |a]; try reflexivity.
  unfold gtb, sub. cbn [neg add ltb of_Z].
  apply Qc_ltb_ge. rewrite Qc_zero. qc_lra.
Qed.

Lemma compare_positive_differ (x y : Stock) :
  (compareStocks x y >? 0)%js = true -> efficiency x <> efficiency y.
Proof.
  change (compareStocks x y) with (efficiency y - efficiency x)%js.
  intros H E. rewrite E, sub_self_not_positive in H.
  discriminate.
Qed.

Lemma descending_valid (a b : Stock) :
  valid_stock a -> valid_stock b ->
  (descending a b <-> (effQ b <= effQ a)%Qc).
Proof.
  intros Ha Hb. unfold descending, geb.
  rewrite (efficiency_valid a Ha), (efficiency_valid b Hb).
  apply Qc_leb_le.
Qed.

Lemma sort_insert_sorted (x : Stock) (l : list Stock) :
  valid_stock x -> Forall valid_stock l ->
  StronglySorted descending l ->
  StronglySorted descending (sort_insert compareStocks x l).
Proof.
  intros Hx Hl Hs. induction Hs as [|y l Hs IH Hy]; cbn [sort_insert].
  - repeat constructor.
  - inversion Hl as [|? ? Hvy Hvl]; subst.
    rewrite (compare_valid x y Hx Hvy).
    destruct (Qc_ltb (effQ x) (effQ y)) eqn:E.
    + apply Qc_ltb_lt in E. constructor; [now apply IH|].
      eapply Permutation_Forall; [apply Permutation_sym, sort_insert_perm|].
      constructor; [|assumption].
      apply descending_valid; trivial. now apply Qclt_le_weak.
    + apply Qc_ltb_ge in E.
      assert (Hxy : descending x y) by (now apply descending_valid).
      constructor; [now constructor|]. constructor; [assumption|].
      rewrite Forall_forall in Hy, Hvl |- *. intros z Hz.
      specialize (Hy z Hz). specialize (Hvl z Hz).
      apply descending_valid in Hy; trivial.
      apply descending_valid; trivial.
      eapply Qcle_trans; eassumption.
Qed.

Lemma sort_sorted (l : list Stock) :
  Forall valid_stock l -> StronglySorted descending (sortedStocks l).
Proof.
  unfold sortedStocks. induction 1 as [|x l Hx Hl IH]; cbn [sort].
  - constructor.
  - apply sort_insert_sorted; trivial.
    eapply Permutation_Forall; [apply Permutation_sym, sort_perm|assumption].
Qed.

Lemma sort_insert_stable (e : number) (x : Stock) (l : list Stock) :
  filter (hasEfficiency e) (sort_insert compareStocks x l) =
  filter (hasEfficiency e) (x :: l).
Proof.
  induction l as [|y l IH]; cbn [sort_insert]; [reflexivity|].
  destruct (compareStocks x y >? 0)%js eqn:E; [|reflexivity].
  apply compare_positive_differ in E.
  cbn [filter] in *. rewrite IH. unfold hasEfficiency.
  destruct (number_eq_dec (efficiency x) e), (number_eq_dec (efficiency y) e);
    congruence.
Qed.

Lemma sort_stable (e : number) (l : list Stock) :
  filter (hasEfficiency e) (sortedStocks l) = filter (hasEfficiency e) l.
Proof.
  unfold sortedStocks. induction l as [|x l IH]; cbn [sort]; [reflexivity|].
  rewrite sort_insert_stable. cbn [filter]. now rewrite IH.
Qed.

(** The order is determined by these properties: a list of valid stocks
    that is sorted by efficiency descending and keeps, for every
    efficiency, the stocks of the input in their order is the list
    [sortedStocks] returns, whatever stable sorting procedure built it. *)
Lemma hasEfficiency_true (e : number) (s : Stock) :
  hasEfficiency e s = true <-> efficiency s = e.
Proof.
  unfold hasEfficiency. destruct (number_eq_dec (efficiency s) e); split;
    congruence.
Qed.

Lemma filter_head_in (e : number) (y : Stock) (l l' : list Stock) :
  filter (hasEfficiency e) l = filter (hasEfficiency e) (y :: l') ->
  efficiency y = e -> In y l.
Proof.
  intros H E. apply hasEfficiency_true in E. cbn [filter] in H. rewrite E in H.
  assert (Hin : In y (filter (hasEfficiency e) l)) by (rewrite H; now left).
  apply filter_In in Hin. tauto.
Qed.

Lemma descending_antisym (x y : Stock) :
  valid_stock x -> valid_stock y ->
  descending x y -> descending y x -> efficiency x = efficiency y.
Proof.
  intros Hx Hy Hxy Hyx.
  apply descending_valid in Hxy; trivial. apply descending_valid in Hyx; trivial.
  rewrite (efficiency_valid x Hx), (efficiency_valid y Hy). f_equal.
  now apply Qcle_antisym.
Qed.

Lemma stable_descending_unique (l1 l2 : list Stock) :
  Forall valid_stock l1 -> Forall valid_stock l2 ->
  StronglySorted descending l1 -> StronglySorted descending l2 ->
  (forall e, filter (hasEfficiency e) l1 = filter (hasEfficiency e) l2) ->
  l1 = l2.
Proof.
  revert l2. induction l1 as [|x l1 IH]; intros l2 Hv1 Hv2 Hs1 Hs2 Hf.
  - destruct l2 as [|y l2]; [reflexivity|].
    exfalso. apply (filter_head_in (efficiency y) y [] l2); [apply Hf|reflexivity].
  - destruct l2 as [|y l2].
    + exfalso. apply (filter_head_in (efficiency x) x [] l1);
        [symmetry; apply Hf|reflexivity].
    + inversion Hv1 as [|? ? Hx Hv1']; inversion Hv2 as [|? ? Hy Hv2']; subst.
      inversion Hs1 as [|? ? Hs1' Hx1]; inversion Hs2 as [|? ? Hs2' Hy2]; subst.
      assert (Exy : efficiency x = efficiency y).
      { destruct (number_eq_dec (efficiency x) (efficiency y)) as [E|N]; trivial.
        apply descending_antisym; trivial.
        - assert (Hin : In y (x :: l1))
            by (apply (filter_head_in (efficiency y) y _ l2); [apply Hf|reflexivity]).
          destruct Hin as [->|Hin]; [congruence|].
          exact (proj1 (Forall_forall _ _) Hx1 y Hin).
        - assert (Hin : In x (y :: l2))
            by (apply (filter_head_in (efficiency x) x _ l1);
                [symmetry; apply Hf|reflexivity]).
          destruct Hin as [->|Hin]; [congruence|].
          exact (proj1 (Forall_forall _ _) Hy2 x Hin). }
      assert (x = y).
      { specialize (Hf (efficiency x)). cbn [filter] in Hf.
        rewrite (proj2 (hasEfficiency_true (efficiency x) x) eq_refl) in Hf.
        rewrite (proj2 (hasEfficiency_true (efficiency x) y) (eq_sym Exy)) in Hf.
        congruence. }
      subst y. f_equal. apply IH; trivial.
      intros e. specialize (Hf e). cbn [filter] in Hf.
      destruct (hasEfficiency e x); congruence.
Qed.

(** X14 (the order is determined).  For valid stocks, every permutation
    of the input that is sorted by efficiency descending and keeps the
    stocks of each efficiency in input order is the list the walk uses:
    the comparator of the source leaves a stable sort no choice. *)
Lemma sortedStocks_unique (ss l : list Stock) :
  Forall valid_stock ss -> Permutation l ss ->
  StronglySorted descending l ->
  (forall e, filter (hasEfficiency e) l = filter (hasEfficiency e) ss) ->
  l = sortedStocks ss.
Proof.
  intros Hv Hp Hs Hf. apply stable_descending_unique; trivial.
  - eapply Permutation_Forall; [apply Permutation_sym, Hp|exact Hv].
  - now apply valid_sorted.
  - now apply sort_sorted.
  - intros e. now rewrite Hf, sort_stable.
Qed.

(** Two stocks of equal efficiency and a budget that only reaches one of
    them: the one that comes first in the input is bought, whichever it is. *)
Example tie_in_input_order :
  efficiency tieX = efficiency tieY
  /\ investmentResults (allocate (of_Z 100) [tieX; tieY]) =
     [ mkResult "X" "X" (of_Z 1) (of_Z 100) (of_Z 10);
       mkResult "Y" "Y" (of_Z 0) (of_Z 0) (of_Z 0) ]
  /\ investmentResults (allocate (of_Z 100) [tieY; tieX]) =
     [ mkResult "Y" "Y" (of_Z 2) (of_Z 100) (of_Z 5);
       mkResult "X" "X" (of_Z 0) (of_Z 0) (of_Z 0) ].
Proof.
  repeat split; vm_compute; number_eq.
Qed.

(** ** Manual adjustment *)

Lemma adjust_invalid (st : AppState) (k : string) (amt : number) :
  acceptedAmount amt = false ->
  onAdjustInvestment k amt st = (st, [InvalidAmountAlert]).
Proof.
  unfold acceptedAmount, onAdjustInvestment, handleAdjustInvestment.
  rewrite negb_false_iff. intros ->. reflexivity.
Qed.

Lemma adjust_not_found (st : AppState) (k : string) (amt : number) :
  acceptedAmount amt = true -> findStock (stocks st) k = None ->
  onAdjustInvestment k amt st = (st, [StockNotFoundAlert]).
Proof.
  unfold acceptedAmount, onAdjustInvestment, handleAdjustInvestment.
  rewrite negb_true_iff. intros -> ->. reflexivity.
Qed.

Lemma adjust_exceeded (st : AppState) (k : string) (amt : number) (s : Stock) :
  acceptedAmount amt = true -> findStock (stocks st) k = Some s ->
  (newTotalInvested st k amt >? budget st)%js = true ->
  onAdjustInvestment k amt st =
  (st, [BudgetExceededAlert amt (budget st) (totalInvestedAmount st)]).
Proof.
  unfold acceptedAmount, newTotalInvested, onAdjustInvestment,
    handleAdjustInvestment.
  rewrite negb_true_iff. intros -> -> ->. reflexivity.
Qed.

Lemma adjust_applied (st : AppState) (k : string) (amt : number) (s : Stock) :
  acceptedAmount amt = true -> findStock (stocks st) k = Some s ->
  (newTotalInvested st k amt >? budget st)%js = false ->
  onAdjustInvestment k amt st =
  (let updatedResults := map (adjustResult s k amt) (investmentResults st) in
   mkState (budget st) (stocks st) updatedResults
           (sumInvested updatedResults) (sumReturn updatedResults), []).
Proof.
  unfold acceptedAmount, newTotalInvested, onAdjustInvestment,
    handleAdjustInvestment.
  rewrite negb_true_iff. intros -> -> ->. reflexivity.
Qed.

(** The four outcomes of an adjustment. *)
Lemma adjust_cases (st : AppState) (k : string) (amt : number) :
  onAdjustInvestment k amt st = (st, [InvalidAmountAlert])
  \/ onAdjustInvestment k amt st = (st, [StockNotFoundAlert])
  \/ onAdjustInvestment k amt st =
     (st, [BudgetExceededAlert amt (budget st) (totalInvestedAmount st)])
  \/ exists s, acceptedAmount amt = true /\ findStock (stocks st) k = Some s /\
       (newTotalInvested st k amt >? budget st)%js = false /\
       onAdjustInvestment k amt st =
       (let updatedResults := map (adjustResult s k amt) (investmentResults st) in
        mkState (budget st) (stocks st) updatedResults
                (sumInvested updatedResults) (sumReturn updatedResults), []).
Proof.
  destruct (acceptedAmount amt) eqn:Ea.
  - destruct (findStock (stocks st) k) as [s|] eqn:Ef.
    + destruct (newTotalInvested st k amt >? budget st)%js eqn:Eb.
      * right; right; left. eapply adjust_exceeded; eassumption.
      * right; right; right. exists s. repeat split; trivial.
        now apply adjust_applied.
    + right; left. now apply adjust_not_found.
  - left. now apply adjust_invalid.
Qed.

(** C6 (adjustment rejects over-budget).  When the stock exists and the
    amount is neither [NaN] nor negative, if
    [totalInvested + (newAmount - currentInvestedAmount) > budget] the
    adjustment shows the Budget-Exceeded alert (with the amount, the budget
    and the current total) and leaves results and totals unchanged.  In
    particular with total 80 on budget 100 and X at 20, adjusting X to 45
    is rejected. *)
Theorem adjust_over_budget :
  (forall (st : AppState) (k : string) (amt : number) (s : Stock),
     findStock (stocks st) k = Some s ->
     isNaN amt = false -> (amt <? 0)%js = false ->
     (totalInvestedAmount st + (amt - currentInvestmentAmount (investmentResults st) k)
        >? budget st)%js = true ->
     onAdjustInvestment k amt st =
     (st, [BudgetExceededAlert amt (budget st) (totalInvestedAmount st)]))
  /\ (forall (st : AppState) (x : string) (s : Stock) (r : InvestmentResult),
        budget st = of_Z 100 -> totalInvestedAmount st = of_Z 80 ->
        findStock (stocks st) x = Some s ->
        findResult (investmentResults st) x = Some r ->
        investedAmount r = of_Z 20 ->
        onAdjustInvestment x (of_Z 45) st =
        (st, [BudgetExceededAlert (of_Z 45) (of_Z 100) (of_Z 80)])).
Proof.
  split.
  - intros st k amt s Hs Hnan Hneg Hover.
    apply adjust_exceeded with (s := s); trivial.
    unfold acceptedAmount. now rewrite Hnan, Hneg.
  - intros st x s r Hb Ht Hs Hr Hamt.
    rewrite <- Hb, <- Ht.
    apply adjust_exceeded with (s := s); trivial.
    unfold newTotalInvested, currentInvestmentAmount.
    rewrite Hr, Hamt, Hb, Ht.
    vm_compute. reflexivity.
Qed.

Lemma adjust_over_budget_witness :
  onAdjustInvestment "A" (of_Z 45) overBudgetState =
  (overBudgetState, [BudgetExceededAlert (of_Z 45) (of_Z 100) (of_Z 80)])
  /\ onAdjustInvestment "B" (of_Z 90) overBudgetState =
     (overBudgetState, [BudgetExceededAlert (of_Z 90) (of_Z 100) (of_Z 80)]).
Proof.
  destruct adjust_over_budget as [Hgen Hex]. split.
  - exact (Hex overBudgetState "A" stockA
             (mkResult "A" "A" (of_Q (2 # 10)) (of_Z 20) (of_Z 2))
             eq_refl eq_refl eq_refl eq_refl eq_refl).
  - exact (Hgen overBudgetState "B" (of_Z 90) stockB
             eq_refl eq_refl eq_refl eq_refl).
Defined.


(** The two [reduce] calls add up as a fresh summation does. *)
Lemma sumInvested_fresh (rs : list InvestmentResult) :
  sumInvested rs = freshTotal investedAmount rs.
Proof.
  unfold sumInvested, freshTotal. generalize 0%js.
  induction rs as [|r rs IH]; intros a; cbn [fold_left sumAcross]; [reflexivity|].
  apply IH.
Qed.

Lemma sumReturn_fresh (rs : list InvestmentResult) :
  sumReturn rs = freshTotal actualReturn rs.
Proof.
  unfold sumReturn, freshTotal. generalize 0%js.
  induction rs as [|r rs IH]; intros a; cbn [fold_left sumAcross]; [reflexivity|].
  apply IH.
Qed.

(** C7 (effect of a successful adjustment).  When the adjustment of stock
    [k] to [amt] shows no alert, the stock is listed, budget and stocks are
    unchanged, the results keep their length and positions, every entry
    with another [stockId] is unchanged, every entry of [k] has
    [investedAmount = amt], [fraction = amt / price] and
    [actualReturn = amt * expectedReturn / 100] (computed as the amount
    times [expectedReturn / 100]), and each stored total is the fresh sum
    of its field across the new results, added up from 0 in their order. *)
Theorem adjust_success_frame (st st' : AppState) (k : string) (amt : number) :
  onAdjustInvestment k amt st = (st', []) ->
  exists s,
    findStock (stocks st) k = Some s
    /\ budget st' = budget st /\ stocks st' = stocks st
    /\ List.length (investmentResults st') = List.length (investmentResults st)
    /\ (forall i r, nth_error (investmentResults st) i = Some r ->
          exists r', nth_error (investmentResults st') i = Some r'
            /\ stockId r' = stockId r /\ stockName r' = stockName r
            /\ (stockId r <> k -> r' = r)
            /\ (stockId r = k ->
                  investedAmount r' = amt
                  /\ fraction r' = (amt / price s)%js
                  /\ actualReturn r' = (amt * (expectedReturn s / 100))%js))
    /\ totalInvestedAmount st' = freshTotal investedAmount (investmentResults st')
    /\ totalActualReturn st' = freshTotal actualReturn (investmentResults st').
Proof.
  intros H.
  destruct (adjust_cases st k amt) as [E|[E|[E|(s & _ & Hs & _ & E)]]];
    rewrite E in H; try discriminate.
  injection H as <-. exists s. cbn [budget stocks investmentResults
    totalInvestedAmount totalActualReturn].
  split; [exact Hs|]. split; [reflexivity|]. split; [reflexivity|].
  split; [apply length_map|].
  split; [|split; [apply sumInvested_fresh|apply sumReturn_fresh]].
  intros i r Hr. exists (adjustResult s k amt r). split.
  - rewrite nth_error_map, Hr. reflexivity.
  - unfold adjustResult. destruct (String.eqb (stockId r) k) eqn:Ek.
    + apply String.eqb_eq in Ek. cbn. repeat split; trivial. congruence.
    + apply String.eqb_neq in Ek. repeat split; trivial; congruence.
Qed.

(** Stock A of [overBudgetState] adjusted from 20 to 30: the entry of B
    stays, the entry of A holds 30 with fraction 0.3 and return 3, the
    totals become 90 and 9. *)
Lemma adjust_success_frame_witness :
  let st' := fst (onAdjustInvestment "A" (of_Z 30) overBudgetState) in
  findStock (stocks overBudgetState) "A" = Some stockA
  /\ nth_error (investmentResults st') 1 = nth_error (investmentResults overBudgetState) 1
  /\ (exists r', nth_error (investmentResults st') 0 = Some r'
        /\ investedAmount r' = of_Z 30
        /\ fraction r' = (of_Z 30 / price stockA)%js
        /\ actualReturn r' = (of_Z 30 * (expectedReturn stockA / 100))%js)
  /\ totalInvestedAmount st' = freshTotal investedAmount (investmentResults st')
  /\ totalActualReturn st' = freshTotal actualReturn (investmentResults st').
Proof.
  intros st'.
  destruct (adjust_success_frame overBudgetState st' "A" (of_Z 30) eq_refl)
    as (s & Hs & _ & _ & _ & Hframe & Hti & Htr).
  assert (Es : s = stockA) by (injection Hs as <-; reflexivity).
  split; [reflexivity|].
  split.
  { destruct (Hframe 1%nat (mkResult "B" "B" (of_Q (12 # 10)) (of_Z 60) (of_Z 6)) eq_refl)
      as (r' & Hr' & _ & _ & Hother & _).
    rewrite Hr'. rewrite Hother; [reflexivity|discriminate]. }
  split; [|split; [exact Hti|exact Htr]].
  destruct (Hframe 0%nat (mkResult "A" "A" (of_Q (2 # 10)) (of_Z 20) (of_Z 2)) eq_refl)
    as (r' & Hr' & _ & _ & _ & Hk).
  exists r'. split; [exact Hr'|]. rewrite <- Es. exact (Hk eq_refl).
Defined.

(** C8, as amended.  Every amount that is not a finite non-negative number
    and is not [Infinity] ([NaN], the negative numbers, [-Infinity]) is
    rejected with the Invalid-Input alert and the state unchanged.
    [Infinity] passes that test: whatever the state, the adjustment does
    not end with the Invalid-Input alert. *)
Theorem adjust_invalid_amount :
  (forall (st : AppState) (k : string) (amt : number),
     isFinite amt && (amt >=? 0)%js = false -> amt <> Infinity ->
     onAdjustInvestment k amt st = (st, [InvalidAmountAlert]))
  /\ (forall (st : AppState) (k : string),
        snd (onAdjustInvestment k Infinity st) <> [InvalidAmountAlert]).
Proof.
  split.
  - intros st k amt Hbad Hinf. apply adjust_invalid.
    unfold acceptedAmount. rewrite negb_false_iff.
    destruct amt as [| | |a]; try reflexivity; try congruence.
    cbn [isFinite isNaN andb orb] in *. unfold geb in Hbad.
    cbn [leb of_Z ltb] in *. unfold Qc_ltb. unfold Qc_leb in Hbad.
    now rewrite Hbad.
  - intros st k.
    destruct (adjust_cases st k Infinity) as [E|[E|[E|(s & _ & _ & _ & E)]]].
    + unfold onAdjustInvestment, handleAdjustInvestment in E.
      cbn [isNaN ltb orb] in E.
      destruct (findStock (stocks st) k); [|discriminate].
      destruct (_ >? _)%js; discriminate.
    + rewrite E. discriminate.
    + rewrite E. discriminate.
    + rewrite E. discriminate.
Qed.

Lemma adjust_invalid_amount_witness :
  onAdjustInvestment "A" NaN freshState = (freshState, [InvalidAmountAlert])
  /\ onAdjustInvestment "A" (of_Z (-5)) freshState = (freshState, [InvalidAmountAlert])
  /\ onAdjustInvestment "A" NegInfinity freshState = (freshState, [InvalidAmountAlert])
  /\ snd (onAdjustInvestment "A" Infinity freshState) <> [InvalidAmountAlert].
Proof.
  destruct adjust_invalid_amount as [Hbad Hinf].
  split; [|split; [|split]].
  - apply Hbad; [reflexivity|discriminate].
  - apply Hbad; [reflexivity|discriminate].
  - apply Hbad; [reflexivity|discriminate].
  - apply Hinf.
Defined.

(** C8 as stated fails for [Infinity]: it is not a finite number, yet the
    adjustment of a listed stock to [Infinity] ends with the
    Budget-Exceeded alert, not with the Invalid-Input alert. *)
Lemma adjust_infinity_not_invalid_input :
  isFinite Infinity && (Infinity >=? 0)%js = false
  /\ onAdjustInvestment "A" Infinity freshState =
     (freshState, [BudgetExceededAlert Infinity (of_Z 100) 0%js])
  /\ onAdjustInvestment "A" Infinity freshState <> (freshState, [InvalidAmountAlert]).
Proof.
  split; [reflexivity|]. split; [reflexivity|]. discriminate.
Qed.



(** ** Return consistency *)

Lemma NoDup_id_inj (ss : list Stock) (s s' : Stock) :
  NoDup (map id ss) -> In s ss -> In s' ss -> id s = id s' -> s = s'.
Proof.
  induction ss as [|x ss IH]; simpl; [tauto|].
  intros Hnd Hs Hs' E. inversion Hnd as [|? ? Hnotin Hnd']; subst.
  destruct Hs as [->|Hs], Hs' as [->|Hs']; trivial.
  - exfalso. apply Hnotin. rewrite E. now apply in_map.
  - exfalso. apply Hnotin. rewrite <- E. now apply in_map.
  - now apply IH.
Qed.

Lemma buy_return (c : number) (s : Stock) :
  snd (buy c s) = (snd (fst (buy c s)) * (expectedReturn s / 100))%js.
Proof.
  unfold buy. destruct (c >=? price s)%js; reflexivity.
Qed.

Lemma zero_return (r : InvestmentResult) (s : Stock) :
  valid_stock s -> zeroValued r ->
  actualReturn r = (investedAmount r * (expectedReturn s / 100))%js.
Proof.
  intros (p & e & _ & He & _) (_ & Hi & Ha). rewrite Hi, Ha, He.
  rewrite div_100_fin. unfold of_Z. cbn [mul]. f_equal.
  rewrite Qc_zero. ring.
Qed.

Lemma invest_map_consistent (ss : list Stock) (w : Walk) (s : Stock) :
  NoDup (map id ss) -> In s ss ->
  map_consistent ss (resultsMap w) -> map_consistent ss (resultsMap (invest w s)).
Proof.
  intros Hnd Hs Hm. rewrite invest_resultsMap. unfold record_buy.
  destruct (map_get (resultsMap w) (id s)) as [old|]; [|assumption].
  intros k r s' Hin Hs' Ek.
  destruct (map_set_values_in _ _ _ _ Hin) as [H|H].
  - now apply (Hm k r s').
  - injection H as -> ->. cbn [actualReturn investedAmount].
    rewrite (NoDup_id_inj ss s' s Hnd Hs' Hs Ek). apply buy_return.
Qed.

Lemma walk_map_consistent (ss l : list Stock) (w : Walk) :
  NoDup (map id ss) -> incl l ss ->
  map_consistent ss (resultsMap w) -> map_consistent ss (resultsMap (walk l w)).
Proof.
  intros Hnd Hl Hw.
  destruct (walk_invariant
              (fun rest w' => incl rest ss /\ map_consistent ss (resultsMap w')))
    with (l := l) (w := w) as [rest [_ H]]; auto.
  intros s rest w' [Hincl Hm] _. split.
  - intros x Hx. apply Hincl. now right.
  - apply invest_map_consistent; trivial. apply Hincl. now left.
Qed.

Lemma consistent_incl (ss ss' : list Stock) (rs : list InvestmentResult) :
  incl ss' ss -> consistent ss rs -> consistent ss' rs.
Proof. intros Hincl H r s Hr Hs. apply H; auto. Qed.

Lemma calculate_consistent (st : AppState) :
  Forall valid_stock (stocks st) -> NoDup (map id (stocks st)) ->
  consistent (stocks st) (investmentResults (fst (onCalculate st))).
Proof.
  intros Hv Hnd. unfold onCalculate.
  destruct (degenerate (budget st) (stocks st)) eqn:E.
  - rewrite handleCalculateInvestment_degenerate by assumption. simpl.
    intros r s Hr Hs _. apply in_map_iff in Hr. destruct Hr as [s0 [<- _]].
    apply zero_return; [|repeat split].
    exact (proj1 (Forall_forall _ _) Hv s Hs).
  - rewrite handleCalculateInvestment_regular by assumption. simpl.
    intros r s Hr Hs Ek. unfold map_values in Hr. apply in_map_iff in Hr.
    destruct Hr as [[k r'] [Er Hin]]. simpl in Er. subst r'.
    assert (Hk : keyed (resultsMap (finalWalk (budget st) (stocks st)))).
    { apply walk_keyed. simpl. apply init_keyed. constructor. }
    pose proof (proj1 (Forall_forall _ _) Hk _ Hin) as Hkr. simpl in Hkr.
    refine (walk_map_consistent (stocks st) _ _ Hnd _ _ k r s Hin Hs _).
    + intros x Hx. eapply Permutation_in; [apply sort_perm|exact Hx].
    + simpl. intros k0 r0 s0 Hin0 Hs0 _. apply zero_return.
      * exact (proj1 (Forall_forall _ _) Hv s0 Hs0).
      * assert (Hz : Forall zeroValued (map_values (initResultsMap (stocks st))))
          by (apply init_zeroValued; constructor).
        apply (proj1 (Forall_forall _ _) Hz). now apply (in_map snd) in Hin0.
    + congruence.
Qed.

(** The state after [handleRemoveStock]: the stock list is filtered, the
    results and totals are those of the allocation over the captured list. *)
Lemma onRemoveStock_state (k : string) (st : AppState) :
  fst (onRemoveStock k st) =
  mkState (budget st)
          (filter (fun stock => negb (String.eqb (id stock) k)) (stocks st))
          (investmentResults (fst (onCalculate st)))
          (totalInvestedAmount (fst (onCalculate st)))
          (totalActualReturn (fst (onCalculate st))).
Proof.
  unfold onRemoveStock, handleRemoveStock, onCalculate, setTimeout.
  destruct (degenerate (budget st) (stocks st)) eqn:E.
  - unfold andThen at 1 2. cbn [setStocks setInvestmentResults].
    rewrite !handleCalculateInvestment_degenerate by assumption. reflexivity.
  - unfold andThen at 1 2. cbn [setStocks setInvestmentResults].
    rewrite !handleCalculateInvestment_regular by assumption. reflexivity.
Qed.

(** C5 (return consistency).  With valid stocks of pairwise distinct ids,
    after the allocation, after a removal and after an adjustment of a
    consistent state, every result entry has
    [actualReturn = investedAmount * expectedReturn / 100] for the listed
    stock of its id, the product being the one the three code paths
    compute from the stored amount, [investedAmount * (expectedReturn / 100)]:
    the stored return is that number itself, as the handlers compute it
    from the very amount they store. *)
Theorem return_consistency (st : AppState) :
  Forall valid_stock (stocks st) -> NoDup (map id (stocks st)) ->
  consistent (stocks (fst (onCalculate st)))
             (investmentResults (fst (onCalculate st)))
  /\ (forall k,
        consistent (stocks (fst (onRemoveStock k st)))
                   (investmentResults (fst (onRemoveStock k st))))
  /\ (forall k amt,
        consistent (stocks st) (investmentResults st) ->
        consistent (stocks (fst (onAdjustInvestment k amt st)))
                   (investmentResults (fst (onAdjustInvestment k amt st)))).
Proof.
  intros Hv Hnd. pose proof (calculate_consistent st Hv Hnd) as Hc.
  split; [|split].
  - replace (stocks (fst (onCalculate st))) with (stocks st); [exact Hc|].
    unfold onCalculate. destruct (degenerate (budget st) (stocks st)) eqn:E.
    + now rewrite handleCalculateInvestment_degenerate.
    + now rewrite handleCalculateInvestment_regular.
  - intros k. rewrite onRemoveStock_state. cbn [stocks investmentResults].
    eapply consistent_incl; [|exact Hc]. apply incl_filter.
  - intros k amt Hpre.
    destruct (adjust_cases st k amt) as [E|[E|[E|(s & _ & Hs & _ & E)]]];
      rewrite E; trivial.
    cbn [fst stocks investmentResults]. intros r' s' Hr' Hs' Ek.
    apply in_map_iff in Hr'. destruct Hr' as [r [<- Hr]].
    unfold adjustResult in *. destruct (String.eqb (stockId r) k) eqn:Er.
    + cbn [actualReturn investedAmount stockId] in *.
      apply String.eqb_eq in Er.
      assert (s' = s).
      { unfold findStock in Hs. apply find_some in Hs. destruct Hs as [Hin Ex].
        apply String.eqb_eq in Ex. apply (NoDup_id_inj (stocks st)); trivial.
        congruence. }
      subst s'. reflexivity.
    + now apply Hpre.
Qed.

Lemma return_consistency_witness :
  Forall valid_stock [stockA; stockB]
  /\ NoDup (map id [stockA; stockB])
  /\ consistent [stockA; stockB]
       (investmentResults (allocate (of_Z 120) [stockA; stockB]))
  /\ consistent
       (stocks (fst (onRemoveStock "B" (allocate (of_Z 120) [stockA; stockB]))))
       (investmentResults (fst (onRemoveStock "B" (allocate (of_Z 120) [stockA; stockB]))))
  /\ consistent
       (stocks (fst (onAdjustInvestment "A" (of_Z 10) (allocate (of_Z 120) [stockA; stockB]))))
       (investmentResults
          (fst (onAdjustInvestment "A" (of_Z 10) (allocate (of_Z 120) [stockA; stockB])))).
Proof.
  assert (Hv : Forall valid_stock [stockA; stockB])
    by (repeat constructor; [apply valid_stockA|apply valid_stockB]).
  assert (Hnd : NoDup (map id [stockA; stockB]))
    by (apply NoDup_two; discriminate).
  destruct (return_consistency (mkState (of_Z 120) [stockA; stockB] [] 0%js 0%js) Hv Hnd)
    as (H1 & _ & _).
  destruct (return_consistency (allocate (of_Z 120) [stockA; stockB]) Hv Hnd)
    as (_ & H2 & H3).
  split; [exact Hv|]. split; [exact Hnd|]. split; [exact H1|].
  split; [exact (H2 "B")|]. exact (H3 "A" (of_Z 10) H1).
Defined.

(** ** Removal *)

(** C4, at the failing input.  With budget 120 and stocks A and B
    allocated, removing B leaves the stock list [A] but results and totals
    of the allocation over A and B (B at 100, A at 20, totals 120 and 12);
    the allocation over the remaining stock alone gives A one share
    (invested 100, return 10) and totals 100 and 10. *)
Theorem remove_keeps_removed_entry :
  let st := allocate (of_Z 120) [stockA; stockB] in
  let st' := fst (onRemoveStock "B" st) in
  stocks st' = [stockA]
  /\ investmentResults st' =
     [ mkResult "A" "A" (of_Q (2 # 10)) (of_Z 20) (of_Z 2);
       mkResult "B" "B" (of_Z 2) (of_Z 100) (of_Z 10) ]
  /\ totalInvestedAmount st' = of_Z 120
  /\ totalActualReturn st' = of_Z 12
  /\ investmentResults (allocate (of_Z 120) [stockA]) =
     [ mkResult "A" "A" (of_Z 1) (of_Z 100) (of_Z 10) ]
  /\ totalInvestedAmount (allocate (of_Z 120) [stockA]) = of_Z 100
  /\ totalActualReturn (allocate (of_Z 120) [stockA]) = of_Z 10.
Proof.
  repeat split; vm_compute; number_eq.
Qed.

(** For every state and every id of a listed stock, the results left by
    [handleRemoveStock] still hold an entry for the removed stock, and the
    allocation over the remaining stocks holds none. *)
Lemma remove_results_stale (st : AppState) (k : string) :
  In k (map id (stocks st)) ->
  let remaining := filter (fun stock => negb (String.eqb (id stock) k)) (stocks st) in
  In k (map stockId (investmentResults (fst (onRemoveStock k st))))
  /\ ~ In k (map stockId (investmentResults (allocate (budget st) remaining))).
Proof.
  intros Hin remaining. split.
  - rewrite onRemoveStock_state. cbn [investmentResults].
    now apply calculate_ids.
  - unfold allocate. intros H.
    apply calculate_ids in H.
    cbn [stocks] in H. apply in_map_iff in H. destruct H as [s [Es Hs]].
    apply filter_In in Hs. destruct Hs as [_ Hs].
    apply negb_true_iff, String.eqb_neq in Hs. contradiction.
Qed.

(** * Further properties of the code *)

(** ** Invariants of a session *)

Lemma calculate_budget_stocks (st : AppState) :
  budget (fst (onCalculate st)) = budget st /\
  stocks (fst (onCalculate st)) = stocks st.
Proof.
  unfold onCalculate. destruct (degenerate (budget st) (stocks st)) eqn:E.
  - now rewrite handleCalculateInvestment_degenerate.
  - now rewrite handleCalculateInvestment_regular.
Qed.

Lemma calculate_ids_nodup (st : AppState) :
  NoDup (map id (stocks st)) ->
  NoDup (map stockId (investmentResults (fst (onCalculate st)))).
Proof.
  intros Hnd. unfold onCalculate.
  destruct (degenerate (budget st) (stocks st)) eqn:E.
  - rewrite handleCalculateInvestment_degenerate by assumption.
    cbn [fst investmentResults]. now rewrite map_zeroResult_ids.
  - rewrite handleCalculateInvestment_regular by assumption.
    cbn [fst investmentResults]. rewrite finalWalk_ids.
    unfold initResultsMap. apply init_keys_nodup. constructor.
Qed.

Lemma adjust_ids (st : AppState) (k : string) (amt : number) :
  map stockId (investmentResults (fst (onAdjustInvestment k amt st))) =
  map stockId (investmentResults st).
Proof.
  destruct (adjust_cases st k amt) as [E|[E|[E|(s & _ & _ & _ & E)]]];
    rewrite E; trivial.
  cbn [fst investmentResults]. rewrite map_map. apply map_ext.
  intros r. unfold adjustResult. now destruct (String.eqb (stockId r) k).
Qed.

Lemma adjust_budget_stocks (st : AppState) (k : string) (amt : number) :
  budget (fst (onAdjustInvestment k amt st)) = budget st /\
  stocks (fst (onAdjustInvestment k amt st)) = stocks st.
Proof.
  destruct (adjust_cases st k amt) as [E|[E|[E|(s & _ & _ & _ & E)]]];
    rewrite E; now split.
Qed.

Lemma filter_keeps_distinct_ids (keep : Stock -> bool) (ss : list Stock) :
  NoDup (map id ss) -> NoDup (map id (filter keep ss)).
Proof.
  induction ss as [|s ss IH]; cbn [map filter]; [trivial|].
  intros H. inversion H as [|? ? Hn Hl]; subst.
  destruct (keep s); cbn [map]; [|now apply IH].
  constructor; [|now apply IH].
  intros Hin. apply Hn. apply in_map_iff in Hin. destruct Hin as [y [E Hy]].
  apply filter_In in Hy. rewrite <- E. apply in_map. tauto.
Qed.

Lemma Forall_filter {A : Type} (P : A -> Prop) (p : A -> bool) (l : list A) :
  Forall P l -> Forall P (filter p l).
Proof.
  intros H. apply Forall_forall. intros x Hx. apply filter_In in Hx.
  exact (proj1 (Forall_forall _ _) H x (proj1 Hx)).
Qed.

Lemma handleAddStock_cases (st : AppState) (uuid nm : string) (p e : number) :
  handleAddStock st uuid nm p e st = (st, [InvalidStockAlert])
  \/ (acceptedStock (mkStock uuid nm p e) /\
      handleAddStock st uuid nm p e st =
      (mkState (budget st) (stocks st ++ [mkStock uuid nm p e])
               (investmentResults st) (totalInvestedAmount st)
               (totalActualReturn st), [])).
Proof.
  unfold handleAddStock.
  destruct (String.eqb nm EmptyString) eqn:En; [now left|].
  destruct (isNaN p) eqn:Ep; [now left|].
  destruct (p <=? 0)%js eqn:Ep0; [now left|].
  destruct (isNaN e) eqn:Ee; [now left|].
  destruct (e <? 0)%js eqn:Ee0; [now left|].
  right. split; [|reflexivity].
  split; [|split]; cbn [name price expectedReturn].
  - now apply String.eqb_neq.
  - destruct p as [| | |a]; try discriminate; try reflexivity.
    unfold gtb. cbn [ltb leb of_Z] in *. unfold Qc_ltb. unfold Qc_leb in Ep0.
    now rewrite Ep0.
  - destruct e as [| | |a]; try discriminate; try reflexivity.
    unfold geb. cbn [ltb leb of_Z] in *. unfold Qc_leb. unfold Qc_ltb in Ee0.
    apply negb_false_iff in Ee0. exact Ee0.
Qed.

Lemma next_session_inv (e : Event) (st : AppState) :
  session_inv st -> freshId e st -> session_inv (next e st).
Proof.
  intros (Hb & Hv & Hnd & Hrnd) Hfresh.
  destruct e as [value|uuid nm p er| |k|k amt]; cbn [next].
  - (* BudgetChange *)
    unfold handleBudgetChange, setBudget. cbn [fst].
    repeat split; cbn [budget stocks investmentResults totalInvestedAmount
                         totalActualReturn]; trivial.
    destruct value; reflexivity.
  - (* AddStock *)
    destruct (handleAddStock_cases st uuid nm p er) as [E|[Hacc E]]; rewrite E.
    + repeat split; trivial.
    + cbn [fst]. repeat split; cbn [budget stocks investmentResults
        totalInvestedAmount totalActualReturn]; trivial.
      * apply Forall_app. split; [assumption|]. now constructor.
      * rewrite map_app. cbn [map id]. apply NoDup_app; trivial.
        -- constructor; [tauto|constructor].
        -- intros x Hx [<-|[]]. now apply Hfresh.
  - (* Calculate *)
    destruct (calculate_budget_stocks st) as [Eb Es].
    repeat split; trivial.
    + now rewrite Eb.
    + now rewrite Es.
    + now rewrite Es.
    + now apply calculate_ids_nodup.
  - (* RemoveStock *)
    rewrite onRemoveStock_state.
    repeat split; cbn [budget stocks investmentResults totalInvestedAmount
                         totalActualReturn]; trivial.
    + now apply Forall_filter.
    + now apply filter_keeps_distinct_ids.
    + now apply calculate_ids_nodup.
  - (* AdjustInvestment *)
    destruct (adjust_budget_stocks st k amt) as [Eb Es].
    repeat split; trivial.
    + now rewrite Eb.
    + now rewrite Es.
    + now rewrite Es.
    + now rewrite adjust_ids.
Qed.

Lemma reachable_session_inv (st : AppState) : reachable st -> session_inv st.
Proof.
  induction 1 as [|e st _ IH Hfresh].
  - repeat split; try reflexivity; constructor.
  - now apply next_session_inv.
Qed.

(** ** What the walk leaves over *)

(** The loop ends on the empty list or on the [break]. *)
Lemma double_walk_invariant_end (P : list Stock -> Walk -> Prop) :
  (forall s rest w, P (s :: rest) w -> (currentBudget w <=? 0)%js = false ->
                    P rest (Double.invest w s)) ->
  forall l w, P l w ->
    exists rest, P rest (Double.walk l w) /\
      (rest = [] \/ (currentBudget (Double.walk l w) <=? 0)%js = true).
Proof.
  intros Hstep. induction l as [|s l IH]; intros w Hw; cbn [Double.walk].
  - exists []. auto.
  - destruct (currentBudget w <=? 0)%js eqn:E.
    + exists (s :: l). auto.
    + apply IH. now apply Hstep.
Qed.

(** One round on a positive whole running budget: the amount is positive
    and within the running budget, and what is left is below the price. *)
Lemma double_buy_round (c p : Z) (s : Stock) :
  price s = of_Z p -> (0 < p <= 2 ^ 51)%Z -> (0 < c <= 2 ^ 51)%Z ->
  exists i, snd (fst (Double.buy (of_Z c) s)) = of_Z i /\
            (0 < i <= c)%Z /\ (c - i < p)%Z.
Proof.
  intros Hp Hp0 Hc. unfold Double.buy. rewrite Hp. unfold geb. rewrite of_Z_leb.
  destruct (p <=? c)%Z eqn:E.
  - apply Z.leb_le in E. cbn [fst snd]. rewrite double_floor_div by lia.
    pose proof (Z.div_mod c p ltac:(lia)) as Hdm.
    pose proof (Z.mod_pos_bound c p ltac:(lia)) as Hm.
    assert (H1 : (1 <= c / p)%Z) by (apply Z.div_le_lower_bound; lia).
    exists (c / p * p)%Z. split; [apply double_mul_whole; nia|]. nia.
  - apply Z.leb_gt in E. cbn [fst snd]. exists c. split; [reflexivity|lia].
Qed.

Lemma double_invest_left_inv (B : Z) (l : list Stock) (s : Stock) (rest : list Stock)
    (w : Walk) :
  (B <= 2 ^ 51)%Z ->
  whole_left_inv B l (s :: rest) w -> (currentBudget w <=? 0)%js = false ->
  whole_left_inv B l rest (Double.invest w s).
Proof.
  intros HB (Hv & c & t & Hc & Ht & Hc0 & Ht0 & Hsum & Hout & Hlen) Hpos.
  inversion Hv as [|? ? (p & Hp & Hp0) Hrest]; subst.
  rewrite Hc in Hpos. change 0%js with (of_Z 0) in Hpos. rewrite of_Z_leb in Hpos.
  apply Z.leb_gt in Hpos.
  destruct (double_buy_round c p s Hp Hp0) as (i & Hi & Hi0 & Hleft); [lia|].
  destruct (double_invest_fields w s) as [Eb Et].
  rewrite Hc, Hi in Eb, Et. rewrite Ht in Et.
  rewrite double_sub_whole in Eb by lia. rewrite double_add_whole in Et by lia.
  split; [exact Hrest|].
  exists (c - i)%Z, (t + i)%Z.
  split; [exact Eb|]. split; [exact Et|].
  split; [lia|]. split; [lia|]. split; [lia|]. split.
  - intros s' Hs'. destruct (Hout s' Hs') as [[<-|Hin]|(p' & Hp' & Hlt)].
    + right. exists p. split; [exact Hp|lia].
    + now left.
    + right. exists p'. split; [exact Hp'|lia].
  - intros _. lia.
Qed.

(** X1 (leftover).  In binary64 arithmetic, for a whole budget [B] from 1
    to [2 ^ 51] and a non-empty list of stocks with whole prices from 1 to
    [2 ^ 51], the remaining budget shown after
    [handleCalculateInvestment] is a whole number [r] with [0 <= r < B]
    (something is always invested), and [r] is below the price of every
    stock: what is left over buys no whole share of anything. *)
Theorem whole_leftover (st : AppState) (B : Z) :
  budget st = of_Z B -> (0 < B <= 2 ^ 51)%Z -> Forall whole_price (stocks st) ->
  stocks st <> [] ->
  exists r,
    Double.remainingBudget (fst (Double.onCalculate st)) = of_Z r
    /\ (0 <= r < B)%Z
    /\ (forall s, In s (stocks st) -> (of_Z r <? price s)%js = true).
Proof.
  intros Hb HB Hv Hne. unfold Double.remainingBudget.
  assert (E : degenerate (budget st) (stocks st) = false).
  { unfold degenerate. rewrite Hb. change 0%js with (of_Z 0). rewrite of_Z_leb.
    destruct (stocks st); [congruence|]. cbn [List.length Nat.eqb orb].
    rewrite orb_false_r. apply Z.leb_gt. lia. }
  rewrite double_regular by exact E.
  cbn [budget totalInvestedAmount]. rewrite Hb. unfold Double.finalWalk.
  set (l := Double.sortedStocks (stocks st)).
  set (w0 := mkWalk (of_Z B) 0%js 0%js (initResultsMap (stocks st))).
  assert (Hperm : Permutation l (stocks st)) by apply sort_perm.
  destruct (double_walk_invariant_end (whole_left_inv B l)) with (l := l) (w := w0)
    as (rest & (Hrest & c & t & Hc & Ht & Hc0 & Ht0 & Hsum & Hout & Hlen) & Hend).
  - intros s rest w. apply double_invest_left_inv. lia.
  - split; [now apply whole_sorted|]. exists B, 0%Z.
    cbn [currentBudget currentTotalInvestedAmount w0].
    split; [reflexivity|]. split; [reflexivity|].
    split; [lia|]. split; [lia|]. split; [lia|]. split.
    + intros s Hs. now left.
    + intros H. exfalso. revert H. apply Nat.lt_irrefl.
  - exists c. rewrite Ht, double_sub_whole by lia.
    split; [f_equal; lia|].
    assert (Hzero : rest <> [] -> c = 0%Z).
    { intros Hr. destruct Hend as [->|Hend]; [congruence|].
      rewrite Hc in Hend. change 0%js with (of_Z 0) in Hend.
      rewrite of_Z_leb in Hend. apply Z.leb_le in Hend. lia. }
    assert (Hlen0 : (0 < List.length l)%nat).
    { rewrite (Permutation_length Hperm). destruct (stocks st); [congruence|cbn; lia]. }
    split.
    + split; [exact Hc0|]. destruct rest as [|s0 rest].
      * apply Hlen. exact Hlen0.
      * rewrite Hzero by discriminate. lia.
    + intros s Hs.
      assert (Hs' : In s l)
        by (eapply Permutation_in; [apply Permutation_sym, Hperm|exact Hs]).
      destruct (proj1 (Forall_forall _ _) Hv s Hs) as (p & Hp & Hp0).
      rewrite Hp. unfold ltb. 
      assert (Hcp : (c < p)%Z).
      { destruct (Hout s Hs') as [Hin|(p' & Hp' & Hlt)].
        - rewrite Hzero; [lia|]. intros ->. contradiction.
        - rewrite Hp in Hp'. apply (f_equal wholeAmount) in Hp'.
          rewrite !wholeAmount_of_Z in Hp'. lia. }
      unfold of_Z. unfold Qc_ltb. apply negb_true_iff.
      destruct (Qle_bool (Q2Qc (inject_Z p)) (Q2Qc (inject_Z c))) eqn:El; [|reflexivity].
      apply Qle_bool_iff in El. rewrite !this_of_Z, <- Zle_Qle in El. lia.
Qed.

(** X15 (the greedy-ordering example in binary64).  With every operation
    rounded, the example of A (price 100, return 10) and B (price 50,
    return 10) on budget 120 gives what it gives without rounding: B is
    ranked first and gets 2 shares for 100 with return 10, A gets the
    remaining 20 with return 2 and the fraction 20 / 100, which is the
    binary64 number nearest to 0.2; the totals are 120 and 12. *)
Theorem greedy_example_binary64 :
  let st' := Double.allocate (of_Z 120) [stockA; stockB] in
  Double.sortedStocks [stockA; stockB] = [stockB; stockA]
  /\ investmentResults st' =
     [ mkResult "A" "A" (Double.lit (2 # 10)) (of_Z 20) (of_Z 2);
       mkResult "B" "B" (of_Z 2) (of_Z 100) (of_Z 10) ]
  /\ totalInvestedAmount st' = of_Z 120
  /\ totalActualReturn st' = of_Z 12.
Proof.
  repeat split; vm_compute; number_eq.
Qed.

(** ** Returns in binary64 *)

Lemma double_buy_return (c : number) (s : Stock) :
  snd (Double.buy c s) =
  Double.mul (snd (fst (Double.buy c s))) (Double.div (expectedReturn s) (of_Z 100)).
Proof.
  unfold Double.buy. destruct (c >=? price s)%js; reflexivity.
Qed.

Lemma double_hundredth_finite (e : Z) :
  (0 <= e <= 2 ^ 51)%Z -> exists x, Double.div (of_Z e) (of_Z 100) = Fin x.
Proof.
  intros He. unfold Double.div, of_Z. cbn [div].
  rewrite of_Z_nonzero by lia.
  set (q := (Q2Qc (inject_Z e) / Q2Qc (inject_Z 100))%Qc).
  assert (Hq : (q == inject_Z e / inject_Z 100)%Q).
  { unfold q, Qcdiv, Qcmult, Qcinv. cbn [this Q2Qc]. rewrite !Qred_correct. reflexivity. }
  assert (He' : (0 <= inject_Z e)%Q) by (change 0%Q with (inject_Z 0); rewrite <- Zle_Qle; lia).
  unfold Double.round. destruct (Qcompare_spec 0 q) as [H|H|H].
  - eauto.
  - assert (Hp : (Double.pow2 (- 0) == 1)%Q) by reflexivity.
    destruct (round_pos_between q 0 e 0 H) as [_ H2]; try lia.
    + rewrite Hp. change (inject_Z 0) with 0%Q. lra.
    + rewrite Hp, Hq. apply Qle_shift_div_r; [reflexivity|].
      change (inject_Z 100) with 100%Q. lra.
    + rewrite Hp in H2. rewrite (below_overflow _ e) by (lra || lia). eauto.
  - exfalso. rewrite Hq in H.
    assert (0 <= inject_Z e / inject_Z 100)%Q; [|lra].
    apply Qle_shift_div_l; [reflexivity|]. lra.
Qed.

Lemma double_zero_return (r : InvestmentResult) (s : Stock) :
  whole_return s -> zeroValued r ->
  actualReturn r =
  Double.mul (investedAmount r) (Double.div (expectedReturn s) (of_Z 100)).
Proof.
  intros (e & He & He0) (_ & Hi & Ha). rewrite Hi, Ha, He.
  destruct (double_hundredth_finite e He0) as [x ->].
  unfold Double.mul, of_Z. cbn [mul].
  replace (Q2Qc (inject_Z 0) * x)%Qc with (Q2Qc (inject_Z 0)) by (rewrite Qc_zero; ring).
  reflexivity.
Qed.

Lemma double_invest_map_consistent (ss : list Stock) (w : Walk) (s : Stock) :
  NoDup (map id ss) -> In s ss ->
  double_map_consistent ss (resultsMap w) ->
  double_map_consistent ss (resultsMap (Double.invest w s)).
Proof.
  intros Hnd Hs Hm. rewrite double_invest_resultsMap. unfold record_buy.
  destruct (map_get (resultsMap w) (id s)) as [old|]; [|assumption].
  intros k r s' Hin Hs' Ek.
  destruct (map_set_values_in _ _ _ _ Hin) as [H|H].
  - now apply (Hm k r s').
  - injection H as -> ->. cbn [actualReturn investedAmount].
    rewrite (NoDup_id_inj ss s' s Hnd Hs' Hs Ek). apply double_buy_return.
Qed.

(** X17 (returns of the allocation in binary64).  With every operation
    rounded, for stocks of pairwise distinct ids whose expected returns
    are whole numbers from 0 to [2 ^ 51], whatever the budget and the
    prices, every result of [handleCalculateInvestment] has
    [actualReturn = investedAmount * (expectedReturn / 100)] for the
    listed stock of its id. *)
Theorem double_return_consistency (st : AppState) :
  Forall whole_return (stocks st) -> NoDup (map id (stocks st)) ->
  double_consistent (stocks st) (investmentResults (fst (Double.onCalculate st))).
Proof.
  intros Hv Hnd.
  destruct (degenerate (budget st) (stocks st)) eqn:E.
  - rewrite double_degenerate by exact E. cbn [investmentResults].
    intros r s Hr Hs _. apply in_map_iff in Hr. destruct Hr as [s0 [<- _]].
    apply double_zero_return; [|repeat split].
    exact (proj1 (Forall_forall _ _) Hv s Hs).
  - rewrite double_regular by exact E. cbn [investmentResults].
    unfold Double.finalWalk.
    destruct (double_walk_invariant
                (fun rest w' => incl rest (stocks st) /\
                                keyed (resultsMap w') /\
                                double_map_consistent (stocks st) (resultsMap w')))
      with (l := Double.sortedStocks (stocks st))
           (w := mkWalk (budget st) 0%js 0%js (initResultsMap (stocks st)))
      as (rest & _ & Hk & Hm).
    + intros s rest w' (Hincl & Hk & Hm) _. split; [|split].
      * intros x Hx. apply Hincl. now right.
      * rewrite double_invest_resultsMap. now apply record_buy_keyed.
      * apply double_invest_map_consistent; trivial. apply Hincl. now left.
    + split; [|split]; cbn [resultsMap].
      * intros x Hx. eapply Permutation_in; [apply sort_perm|exact Hx].
      * apply init_keyed. constructor.
      * intros k0 r0 s0 Hin0 Hs0 _. apply double_zero_return.
        -- exact (proj1 (Forall_forall _ _) Hv s0 Hs0).
        -- assert (Hz : Forall zeroValued (map_values (initResultsMap (stocks st))))
             by (apply init_zeroValued; constructor).
           apply (proj1 (Forall_forall _ _) Hz). now apply (in_map snd) in Hin0.
    + intros r s Hr Hs Ek. unfold map_values in Hr. apply in_map_iff in Hr.
      destruct Hr as [[k r'] [Er Hin]]. cbn [snd] in Er. subst r'.
      pose proof (proj1 (Forall_forall _ _) Hk _ Hin) as Hkr. cbn [fst snd] in Hkr.
      apply (Hm k r s Hin Hs). congruence.
Qed.

(** X16 (how the return is rounded).  In binary64 the return of an entry
    is the invested amount times the rounded hundredth of the expected
    return.  For 3 shares at price 1 with expected return 7 the stored
    return is 0.21000000000000002; dividing the product of 3 and 7 by 100
    gives 0.21, a smaller number. *)
Theorem return_association_binary64 :
  let seven := mkStock "S" "S" (of_Z 1) (of_Z 7) in
  let st' := Double.allocate (of_Z 3) [seven] in
  investmentResults st' =
    [ mkResult "S" "S" (of_Z 3) (of_Z 3)
        (Double.lit (21000000000000002 # 100000000000000000)) ]
  /\ map actualReturn (investmentResults st') =
     [ Double.mul (of_Z 3) (Double.div (expectedReturn seven) (of_Z 100)) ]
  /\ Double.div (Double.mul (of_Z 3) (expectedReturn seven)) (of_Z 100) =
     Double.lit (21 # 100)
  /\ (Double.lit (21 # 100) <? Double.lit (21000000000000002 # 100000000000000000))%js
     = true.
Proof.
  repeat split; vm_compute; number_eq.
Qed.

(** ** Whole and fractional shares *)

Lemma Qc_leb_false (a b : Qc) : Qc_leb a b = false <-> (b < a)%Qc.
Proof.
  rewrite <- Qc_ltb_lt. unfold Qc_ltb, Qc_leb.
  destruct (Qle_bool a b); cbn; intuition congruence.
Qed.

Lemma floor_shares_strict (c p : Qc) :
  (0 < p)%Qc -> (p <= c)%Qc ->
  let n := Qfloor (c / p)%Qc in
  (1 <= n)%Z /\ (c - Q2Qc (inject_Z n) * p < p)%Qc.
Proof.
  intros Hp Hc n.
  destruct c as [c Hcc], p as [p Hpc].
  unfold Qclt, Qcle in *. cbn [this] in Hp, Hc.
  change (this 0%Qc) with 0%Q in *.
  set (x := (Qcmake c Hcc / Qcmake p Hpc)%Qc) in *.
  assert (Hx : (this x == c / p)%Q).
  { unfold x, Qcdiv, Qcmult, Qcinv, Q2Qc. cbn [this]. rewrite !Qred_correct.
    reflexivity. }
  assert (H1 : (1 <= c / p)%Q).
  { apply Qle_shift_div_l; [assumption|]. lra. }
  assert (Hn : (1 <= n)%Z).
  { change 1%Z with (Qfloor (inject_Z 1)). apply Qfloor_resp_le.
    rewrite Hx. exact H1. }
  split; [exact Hn|].
  assert (Hlt : (c / p < inject_Z n + 1)%Q).
  { rewrite <- Hx. pose proof (Qlt_floor (this x)) as H.
    rewrite inject_Z_plus in H. exact H. }
  assert (Hcp : (c < (inject_Z n + 1) * p)%Q).
  { assert (E : (c == c / p * p)%Q) by (field; lra). rewrite E.
    apply Qmult_lt_compat_r; assumption. }
  unfold Qcminus, Qcplus, Qcopp, Qcmult, Q2Qc. cbn [this].
  rewrite !Qred_correct. lra.
Qed.

(** One round of the loop on a positive running budget [c]: the amount
    invested is positive and at most [c], what is left is below the price,
    and either whole shares were bought or nothing is left. *)
Lemma buy_round (c : Qc) (s : Stock) :
  valid_stock s -> (0 < c)%Qc ->
  exists p i,
    price s = Fin p /\ snd (fst (buy (Fin c) s)) = Fin i /\
    (0 < i)%Qc /\ (i <= c)%Qc /\ (c - i < p)%Qc /\
    ((exists n, (1 <= n)%Z /\ fst (fst (buy (Fin c) s)) = of_Z n) \/ i = c).
Proof.
  intros (p & e & Hp & He & Hp0 & He0) Hc. exists p. unfold buy. rewrite Hp, He.
  unfold geb. cbn [leb].
  destruct (Qc_leb p c) eqn:E.
  - apply Qc_leb_le in E. rewrite div_pos by assumption. cbn [floor fst snd].
    destruct (floor_shares_strict c p Hp0 E) as [Hn Hlt].
    destruct (floor_shares c p Hp0 (Qclt_le_weak _ _ Hc)) as [_ Hle].
    exists (Q2Qc (inject_Z (Qfloor (c / p)%Qc)) * p)%Qc.
    unfold of_Z at 1. cbn [mul]. repeat split; trivial.
    + assert (H1 : (1 <= inject_Z (Qfloor (c / p)%Qc))%Q).
      { change 1%Q with (inject_Z 1). now rewrite <- Zle_Qle. }
      assert (Hp' : (0 < this p)%Q) by exact Hp0.
      unfold Qclt, Qcmult, Q2Qc. cbn [this].
      rewrite !Qred_correct. change (Qred 0) with 0%Q.
      apply Qlt_le_trans with (1 * p)%Q; [lra|].
      apply Qmult_le_compat_r; [exact H1|lra].
    + left. eauto.
  - apply Qc_leb_false in E. cbn [fst snd]. exists c.
    repeat split; trivial.
    + apply Qcle_refl.
    + clear - Hp0. qc_lra.
    + now right.
Qed.

Lemma wholeShares_zero (r : InvestmentResult) : zeroValued r -> wholeShares r.
Proof. intros (H & _). exists 0%Z. split; [lia|exact H]. Qed.

Lemma finalWalk_keyed (b : number) (ss : list Stock) :
  keyed (resultsMap (finalWalk b ss)).
Proof.
  unfold finalWalk. apply walk_keyed. cbn [resultsMap]. apply init_keyed.
  constructor.
Qed.

Lemma invest_fraction_inv (s : Stock) (rest : list Stock) (w : Walk) :
  fraction_inv (s :: rest) w -> (currentBudget w <=? 0)%js = false ->
  fraction_inv rest (invest w s).
Proof.
  intros (Hv & c & Hc & Hc0 & Hwhole) Hpos.
  inversion Hv as [|? ? Hs Hrest]; subst.
  rewrite Hc in Hpos. cbn [leb of_Z] in Hpos. apply Qc_leb_false in Hpos.
  rewrite Qc_zero in Hpos.
  destruct (buy_round c s Hs Hpos) as (p & i & Hp & Hi & Hi0 & Hic & _ & Hkind).
  destruct (invest_fields w s) as [Eb _].
  rewrite Hc, Hi in Eb. cbn [sub neg add] in Eb.
  assert (Hw : Forall wholeShares (map_values (resultsMap w))).
  { destruct Hwhole as [Hw|[Hz _]]; [exact Hw|].
    exfalso. subst c. exact (Qclt_not_le _ _ Hpos (Qcle_refl _)). }
  split; [exact Hrest|]. exists (c + - i)%Qc.
  split; [exact Eb|]. split; [clear - Hic; qc_lra|].
  rewrite invest_resultsMap, Hc. unfold record_buy.
  destruct (map_get (resultsMap w) (id s)) as [old|]; [|now left].
  destruct Hkind as [(n & Hn & Hf)|Hall].
  - left. apply Forall_values_set; [exact Hw|].
    exists n. split; [lia|exact Hf].
  - right. split; [subst i; ring|]. exists (id s). intros k' r Hin Hk.
    destruct (map_set_values_in _ _ _ _ Hin) as [H|H].
    + apply (proj1 (Forall_forall _ _) Hw). now apply (in_map snd) in H.
    + injection H as E _. congruence.
Qed.

Lemma stockId_inj (rs : list InvestmentResult) (r1 r2 : InvestmentResult) :
  NoDup (map stockId rs) -> In r1 rs -> In r2 rs -> stockId r1 = stockId r2 -> r1 = r2.
Proof.
  induction rs as [|x rs IH]; cbn [map In]; [tauto|].
  intros Hnd H1 H2 E. inversion Hnd as [|? ? Hn Hnd']; subst.
  destruct H1 as [->|H1], H2 as [->|H2]; trivial.
  - exfalso. apply Hn. rewrite E. now apply in_map.
  - exfalso. apply Hn. rewrite <- E. now apply in_map.
  - now apply IH.
Qed.

(** X2 (fractional buys).  For a finite budget and valid stocks, after
    [handleCalculateInvestment] at most one result holds a fractional
    share: the fractions of all the other results are whole numbers. *)
Theorem one_fractional_entry (st : AppState) (b : Qc) :
  budget st = Fin b -> Forall valid_stock (stocks st) ->
  forall r1 r2,
    In r1 (investmentResults (fst (onCalculate st))) ->
    In r2 (investmentResults (fst (onCalculate st))) ->
    ~ wholeShares r1 -> ~ wholeShares r2 -> r1 = r2.
Proof.
  intros Hb Hv r1 r2. unfold onCalculate.
  destruct (degenerate (budget st) (stocks st)) eqn:E.
  - rewrite handleCalculateInvestment_degenerate by assumption.
    cbn [fst investmentResults]. intros H1 _ Hn1 _. exfalso. apply Hn1.
    apply wholeShares_zero.
    exact (proj1 (Forall_forall _ _) (map_zeroResult_zero (stocks st)) r1 H1).
  - rewrite handleCalculateInvestment_regular by assumption.
    cbn [fst investmentResults]. rewrite Hb in *.
    assert (Hb0 : (0 <= b)%Qc).
    { unfold degenerate in E. apply orb_false_iff in E. destruct E as [E _].
      cbn [leb of_Z] in E. apply Qc_leb_false in E. rewrite Qc_zero in E.
      now apply Qclt_le_weak. }
    destruct (walk_invariant fraction_inv invest_fraction_inv (sortedStocks (stocks st))
                (mkWalk (Fin b) 0%js 0%js (initResultsMap (stocks st))))
      as (rest & _ & c & _ & _ & Hwhole).
    { split; [now apply valid_sorted|]. exists b.
      split; [reflexivity|]. split; [exact Hb0|]. left.
      eapply Forall_impl; [apply wholeShares_zero|].
      apply init_zeroValued. constructor. }
    fold (finalWalk (Fin b) (stocks st)) in Hwhole.
    intros H1 H2 Hn1 Hn2.
    destruct Hwhole as [Hw|(_ & k & Hk)].
    + exfalso. apply Hn1. exact (proj1 (Forall_forall _ _) Hw r1 H1).
    + assert (Hid : forall r, In r (map_values (resultsMap (finalWalk (Fin b) (stocks st)))) ->
                      ~ wholeShares r -> stockId r = k).
      { intros r Hr Hn. unfold map_values in Hr. apply in_map_iff in Hr.
        destruct Hr as [[k' r'] [Er Hin]]. cbn [snd] in Er. subst r'.
        pose proof (proj1 (Forall_forall _ _) (finalWalk_keyed (Fin b) (stocks st)) _ Hin)
          as Hkey.
        cbn [fst snd] in Hkey. rewrite Hkey.
        destruct (string_dec k' k) as [Ek|Ek]; [exact Ek|].
        exfalso. apply Hn. now apply (Hk k' r). }
      apply (stockId_inj (map_values (resultsMap (finalWalk (Fin b) (stocks st))))); trivial.
      * rewrite finalWalk_ids. unfold initResultsMap. apply init_keys_nodup. constructor.
      * rewrite (Hid r1 H1 Hn1), (Hid r2 H2 Hn2). reflexivity.
Qed.

(** ** Funding order *)

Lemma findResult_values (m : ResultsMap) (k : string) :
  keyed m -> findResult (map_values m) k = map_get m k.
Proof.
  unfold findResult, map_values.
  induction 1 as [|[k' v] m Hkv _ IH]; cbn [map find map_get snd]; [reflexivity|].
  cbn [snd fst] in Hkv. rewrite Hkv. destruct (String.eqb k' k); [reflexivity|exact IH].
Qed.

Lemma record_buy_get_same (m : ResultsMap) (s : Stock) (f i a : number)
    (old : InvestmentResult) :
  map_get m (id s) = Some old ->
  map_get (record_buy m s f i a) (id s) =
  Some (mkResult (stockId old) (stockName old) f i a).
Proof.
  intros H. unfold record_buy. rewrite H. apply map_get_set_same.
Qed.

Lemma NoDup_app_disjoint {A : Type} (l1 l2 : list A) (x : A) :
  NoDup (l1 ++ l2) -> In x l1 -> In x l2 -> False.
Proof.
  induction l1 as [|y l1 IH]; cbn [app]; [intros _ []|].
  intros H [->|Hin] H2; inversion H as [|? ? Hn Hl]; subst.
  - apply Hn. apply in_or_app. now right.
  - now apply IH.
Qed.

Lemma invest_priority_inv (l : list Stock) (s : Stock) (rest : list Stock) (w : Walk) :
  priority_inv l (s :: rest) w -> (currentBudget w <=? 0)%js = false ->
  priority_inv l rest (invest w s).
Proof.
  intros (Hv & Hnd & (c & Hc & Hc0) & pre & Hl & Hpre & Hzero) Hpos.
  inversion Hv as [|? ? Hs Hrest]; subst l.
  rewrite Hc in Hpos. cbn [leb of_Z] in Hpos. apply Qc_leb_false in Hpos.
  rewrite Qc_zero in Hpos.
  destruct (buy_round c s Hs Hpos) as (p & i & Hp & Hi & Hi0 & Hic & _ & _).
  destruct (invest_fields w s) as [Eb _]. rewrite Hc, Hi in Eb.
  cbn [sub neg add] in Eb.
  assert (Hids : forall s', In s' pre \/ In s' rest -> id s <> id s').
  { intros s' Hs' E. rewrite map_app in Hnd. cbn [map] in Hnd.
    destruct Hs' as [Hs'|Hs'].
    - apply (NoDup_app_disjoint _ _ (id s) Hnd).
      + rewrite E. now apply in_map.
      + now left.
    - apply NoDup_remove_2 in Hnd. apply Hnd. apply in_or_app. right.
      rewrite E. now apply in_map. }
  split; [exact Hrest|]. split; [exact Hnd|].
  split; [exists (c + - i)%Qc; split; [exact Eb|clear - Hic; qc_lra]|].
  exists (pre ++ [s]). split; [now rewrite <- app_assoc|]. split.
  - intros s' Hs'. rewrite invest_resultsMap. apply in_app_or in Hs'.
    destruct Hs' as [Hs'|[<-|[]]].
    + rewrite record_buy_get_other by (apply Hids; now left). now apply Hpre.
    + destruct (Hzero s (or_introl eq_refl)) as (old & Hold & _).
      rewrite (record_buy_get_same _ _ _ _ _ old Hold).
      eexists. exists i. split; [reflexivity|]. cbn [investedAmount].
      rewrite Hc, Hi. now split.
  - intros s' Hs'. rewrite invest_resultsMap.
    rewrite record_buy_get_other by (apply Hids; now right).
    apply Hzero. now right.
Qed.

Lemma StronglySorted_app_rel {A : Type} (R : A -> A -> Prop) (l1 l2 : list A) (x y : A) :
  StronglySorted R (l1 ++ l2) -> In x l1 -> In y l2 -> R x y.
Proof.
  induction l1 as [|z l1 IH]; cbn [app]; [intros _ []|].
  intros H [->|Hx] Hy; inversion H as [|? ? Hs Hall]; subst.
  - apply (proj1 (Forall_forall _ _) Hall). apply in_or_app. now right.
  - now apply IH.
Qed.

(** After the walk the sorted list splits in two: the stocks visited, each
    with a positive amount, and the stocks not reached, each with 0. *)
Lemma finalWalk_priority (b : Qc) (ss : list Stock) :
  (0 <= b)%Qc -> Forall valid_stock ss -> NoDup (map id ss) ->
  exists pre rest,
    sortedStocks ss = pre ++ rest /\
    (forall s, In s pre ->
       exists r q, map_get (resultsMap (finalWalk (Fin b) ss)) (id s) = Some r /\
                   investedAmount r = Fin q /\ (0 < q)%Qc) /\
    (forall s, In s rest ->
       exists r, map_get (resultsMap (finalWalk (Fin b) ss)) (id s) = Some r /\
                 investedAmount r = 0%js).
Proof.
  intros Hb Hv Hnd. unfold finalWalk.
  destruct (walk_invariant (priority_inv (sortedStocks ss)))
    with (l := sortedStocks ss) (w := mkWalk (Fin b) 0%js 0%js (initResultsMap ss))
    as (rest & _ & _ & _ & pre & Hl & Hpre & Hzero).
  - intros s rest w. apply invest_priority_inv.
  - split; [now apply valid_sorted|]. split.
    + eapply Permutation_NoDup; [|exact Hnd].
      apply Permutation_map, Permutation_sym, sort_perm.
    + split; [exists b; now split|]. exists []. split; [reflexivity|].
      split; [intros s []|].
      intros s Hs. destruct (init_get ss s) as (r & Hr & _ & Hz & _).
      * eapply Permutation_in; [apply sort_perm|exact Hs].
      * eauto.
  - exists pre, rest. auto.
Qed.

(** X3 (funding order).  For a finite budget and valid stocks of pairwise
    distinct ids, after [handleCalculateInvestment] no stock is funded
    while a strictly more efficient one is left with 0: if the stock of
    higher efficiency holds 0, so does the one of lower efficiency. *)
Theorem funding_follows_efficiency (st : AppState) (b : Qc) :
  budget st = Fin b -> Forall valid_stock (stocks st) ->
  NoDup (map id (stocks st)) ->
  forall s1 s2 r1 r2,
    In s1 (stocks st) -> In s2 (stocks st) ->
    (efficiency s1 >? efficiency s2)%js = true ->
    findResult (investmentResults (fst (onCalculate st))) (id s1) = Some r1 ->
    findResult (investmentResults (fst (onCalculate st))) (id s2) = Some r2 ->
    investedAmount r1 = 0%js -> investedAmount r2 = 0%js.
Proof.
  intros Hb Hv Hnd s1 s2 r1 r2 Hs1 Hs2 Heff. unfold onCalculate.
  destruct (degenerate (budget st) (stocks st)) eqn:E.
  - rewrite handleCalculateInvestment_degenerate by assumption.
    cbn [fst investmentResults]. intros _ H2 _.
    unfold findResult in H2. apply find_some in H2. destruct H2 as [H2 _].
    apply in_map_iff in H2. destruct H2 as [s [<- _]]. reflexivity.
  - rewrite handleCalculateInvestment_regular by assumption.
    cbn [fst investmentResults]. rewrite !findResult_values by apply finalWalk_keyed.
    rewrite Hb in *. intros H1 H2 Hz.
    assert (Hb0 : (0 <= b)%Qc).
    { unfold degenerate in E. apply orb_false_iff in E. destruct E as [E _].
      cbn [leb of_Z] in E. apply Qc_leb_false in E. rewrite Qc_zero in E.
      now apply Qclt_le_weak. }
    destruct (finalWalk_priority b (stocks st) Hb0 Hv Hnd)
      as (pre & rest & Hl & Hpre & Hzero).
    assert (Hin : forall s, In s (stocks st) -> In s pre \/ In s rest).
    { intros s Hs. apply in_app_or. rewrite <- Hl.
      eapply Permutation_in; [apply Permutation_sym, sort_perm|exact Hs]. }
    assert (Hr1 : In s1 rest).
    { destruct (Hin s1 Hs1) as [Hp|Hr]; [|exact Hr]. exfalso.
      destruct (Hpre s1 Hp) as (r & q & Hr & Hq & Hq0).
      rewrite H1 in Hr. injection Hr as <-. rewrite Hz in Hq.
      injection Hq as <-. exact (Qclt_not_le _ _ Hq0 (Qcle_refl _)). }
    destruct (Hin s2 Hs2) as [Hp|Hr].
    + exfalso.
      pose proof (sort_sorted (stocks st) Hv) as Hsorted. rewrite Hl in Hsorted.
      pose proof (StronglySorted_app_rel descending pre rest s2 s1 Hsorted Hp Hr1) as Hd.
      pose proof (proj1 (Forall_forall _ _) Hv s1 Hs1) as Hv1.
      pose proof (proj1 (Forall_forall _ _) Hv s2 Hs2) as Hv2.
      apply descending_valid in Hd; trivial.
      unfold gtb in Heff.
      rewrite (efficiency_valid s1 Hv1), (efficiency_valid s2 Hv2) in Heff.
      cbn [ltb] in Heff. apply Qc_ltb_lt in Heff.
      exact (Qclt_not_le _ _ Heff Hd).
    + destruct (Hzero s2 Hr) as (r & Hr' & Hz'). rewrite H2 in Hr'.
      now injection Hr' as <-.
Qed.

(** ** Order of the walk *)








(** ** How the handlers compose *)

Lemma onCalculate_reads (st1 st2 : AppState) :
  budget st1 = budget st2 -> stocks st1 = stocks st2 ->
  onCalculate st1 = onCalculate st2.
Proof.
  intros Hb Hs. unfold onCalculate.
  destruct (degenerate (budget st1) (stocks st1)) eqn:E.
  - rewrite (handleCalculateInvestment_degenerate st1 st1 E).
    rewrite Hb, Hs in E.
    rewrite (handleCalculateInvestment_degenerate st2 st2 E).
    now rewrite Hb, Hs.
  - rewrite (handleCalculateInvestment_regular st1 st1 E).
    rewrite Hb, Hs in E.
    rewrite (handleCalculateInvestment_regular st2 st2 E).
    now rewrite Hb, Hs.
Qed.

(** X5 (recalculation).  [handleCalculateInvestment] reads only the budget
    and the stock list: run after any adjustment it gives the state and
    alerts it gives without the adjustment (manual overrides are
    discarded), and run twice it gives what it gives once. *)
Theorem recalculation_discards_adjustments (st : AppState) :
  (forall k amt, onCalculate (fst (onAdjustInvestment k amt st)) = onCalculate st)
  /\ onCalculate (fst (onCalculate st)) = onCalculate st.
Proof.
  split.
  - intros k amt. destruct (adjust_budget_stocks st k amt) as [Hb Hs].
    now apply onCalculate_reads.
  - destruct (calculate_budget_stocks st) as [Hb Hs].
    now apply onCalculate_reads.
Qed.

Lemma findStock_removed (ss : list Stock) (k : string) :
  findStock (filter (fun stock => negb (String.eqb (id stock) k)) ss) k = None.
Proof.
  unfold findStock.
  destruct (find _ (filter _ ss)) as [s|] eqn:E; [|reflexivity].
  apply find_some in E. destruct E as [Hin Hk].
  apply filter_In in Hin. destruct Hin as [_ Hn]. cbn in Hk.
  rewrite Hk in Hn. discriminate.
Qed.

(** X6 (adjusting a removed stock).  After [handleRemoveStock] of a listed
    stock the results still show an entry for it, and every adjustment of
    that entry with an accepted amount ends with the Not-Found alert and
    changes nothing. *)
Theorem adjust_removed_stock (st : AppState) (k : string) (amt : number) :
  In k (map id (stocks st)) -> acceptedAmount amt = true ->
  In k (map stockId (investmentResults (fst (onRemoveStock k st))))
  /\ onAdjustInvestment k amt (fst (onRemoveStock k st)) =
     (fst (onRemoveStock k st), [StockNotFoundAlert]).
Proof.
  intros Hin Hacc. split.
  - rewrite onRemoveStock_state. cbn [investmentResults]. now apply calculate_ids.
  - apply adjust_not_found; [exact Hacc|].
    rewrite onRemoveStock_state. cbn [stocks]. apply findStock_removed.
Qed.

(** X7 (frame of an adjustment).  Whatever the request,
    [handleAdjustInvestment] leaves the budget, the stock list and the
    ids and names of the results, in their order, as they are; it either
    shows no alert, or shows exactly one and leaves the whole state
    unchanged. *)
Theorem adjust_frame (st : AppState) (k : string) (amt : number) :
  budget (fst (onAdjustInvestment k amt st)) = budget st
  /\ stocks (fst (onAdjustInvestment k amt st)) = stocks st
  /\ map label (investmentResults (fst (onAdjustInvestment k amt st))) =
     map label (investmentResults st)
  /\ (snd (onAdjustInvestment k amt st) = []
      \/ exists a, onAdjustInvestment k amt st = (st, [a])).
Proof.
  destruct (adjust_cases st k amt) as [E|[E|[E|(s & _ & _ & _ & E)]]];
    rewrite E; cbn [fst snd budget stocks investmentResults].
  - repeat split; trivial. right. eauto.
  - repeat split; trivial. right. eauto.
  - repeat split; trivial. right. eauto.
  - repeat split; trivial; [|now left].
    rewrite map_map. apply map_ext. intros r. unfold adjustResult, label.
    now destruct (String.eqb (stockId r) k).
Qed.

(** ** Ids and names of the results *)

Lemma map_set_labels (m : ResultsMap) (k : string) (old new : InvestmentResult) :
  map_get m k = Some old -> label new = label old ->
  map label (map_values (map_set m k new)) = map label (map_values m).
Proof.
  unfold map_values.
  induction m as [|[k' v'] m IH]; cbn [map_get map_set]; [discriminate|].
  destruct (String.eqb k' k); cbn [map snd].
  - intros [= ->] ->. reflexivity.
  - intros Hg Hl. now rewrite IH.
Qed.

Lemma record_buy_labels (m : ResultsMap) (s : Stock) (f i a : number) :
  map label (map_values (record_buy m s f i a)) = map label (map_values m).
Proof.
  unfold record_buy. destruct (map_get m (id s)) as [old|] eqn:E; [|reflexivity].
  now apply (map_set_labels m (id s) old).
Qed.

Lemma walk_labels (l : list Stock) (w : Walk) :
  map label (map_values (resultsMap (walk l w))) =
  map label (map_values (resultsMap w)).
Proof.
  destruct (walk_invariant
              (fun _ w' => map label (map_values (resultsMap w')) =
                           map label (map_values (resultsMap w)))) with
    (l := l) (w := w) as [_ H]; auto.
  intros s rest w' H _. now rewrite invest_resultsMap, record_buy_labels.
Qed.

Lemma map_set_absent (m : ResultsMap) (k : string) (v : InvestmentResult) :
  ~ In k (map_keys m) -> map_set m k v = m ++ [(k, v)].
Proof.
  unfold map_keys.
  induction m as [|[k' v'] m IH]; cbn [map_set map fst app]; [reflexivity|].
  intros H. destruct (String.eqb k' k) eqn:E.
  - apply String.eqb_eq in E. exfalso. apply H. now left.
  - f_equal. apply IH. intros Hin. apply H. now right.
Qed.

Lemma init_entries (ss : list Stock) (m0 : ResultsMap) :
  NoDup (map_keys m0 ++ map id ss) ->
  fold_left (fun m stock => map_set m (id stock) (zeroResult stock)) ss m0 =
  m0 ++ map (fun s => (id s, zeroResult s)) ss.
Proof.
  revert m0. induction ss as [|s ss IH]; intro m0; cbn [fold_left map].
  - intros _. now rewrite app_nil_r.
  - intros H.
    assert (Hnin : ~ In (id s) (map_keys m0)).
    { intro Hin. apply NoDup_remove_2 in H. apply H. apply in_or_app. auto. }
    rewrite (map_set_absent m0 _ _ Hnin), IH.
    + now rewrite <- app_assoc.
    + unfold map_keys in *. rewrite map_app, <- app_assoc. exact H.
Qed.

(** X8 (one labelled result per stock).  When the stock ids are pairwise
    distinct, the results of [handleCalculateInvestment] carry, in input
    order, the id and the name of each stock, for every budget. *)
Theorem results_carry_stock_names (st : AppState) :
  NoDup (map id (stocks st)) ->
  map label (investmentResults (fst (onCalculate st))) =
  map (fun s => (id s, name s)) (stocks st).
Proof.
  intros Hnd. unfold onCalculate.
  destruct (degenerate (budget st) (stocks st)) eqn:E.
  - rewrite handleCalculateInvestment_degenerate by assumption.
    cbn [fst investmentResults]. now rewrite map_map.
  - rewrite handleCalculateInvestment_regular by assumption.
    cbn [fst investmentResults]. unfold finalWalk. rewrite walk_labels.
    cbn [resultsMap]. unfold initResultsMap. rewrite init_entries by exact Hnd.
    cbn [app]. unfold map_values. now rewrite !map_map.
Qed.

(** ** Removal *)

(** X9 (what a removal leaves).  [handleRemoveStock] leaves the budget as
    it is and the stock list without the stocks of the given id, while the
    results, the totals and the alerts are those of
    [handleCalculateInvestment] on the list from before the removal; so
    the id of a listed stock is still among the results, and is not listed
    any more. *)
Theorem removal_recomputes_over_previous_list (st : AppState) (k : string) :
  budget (fst (onRemoveStock k st)) = budget st
  /\ stocks (fst (onRemoveStock k st)) =
     filter (fun stock => negb (String.eqb (id stock) k)) (stocks st)
  /\ investmentResults (fst (onRemoveStock k st)) =
     investmentResults (fst (onCalculate st))
  /\ totalInvestedAmount (fst (onRemoveStock k st)) =
     totalInvestedAmount (fst (onCalculate st))
  /\ totalActualReturn (fst (onRemoveStock k st)) =
     totalActualReturn (fst (onCalculate st))
  /\ snd (onRemoveStock k st) = snd (onCalculate st)
  /\ ~ In k (map id (stocks (fst (onRemoveStock k st))))
  /\ (In k (map id (stocks st)) ->
      In k (map stockId (investmentResults (fst (onRemoveStock k st))))).
Proof.
  rewrite onRemoveStock_state.
  cbn [budget stocks investmentResults totalInvestedAmount totalActualReturn].
  repeat split; trivial.
  - unfold onRemoveStock, handleRemoveStock, onCalculate, setTimeout.
    unfold andThen at 1 2. cbn [setStocks setInvestmentResults].
    destruct (degenerate (budget st) (stocks st)) eqn:E.
    + now rewrite !handleCalculateInvestment_degenerate by assumption.
    + now rewrite !handleCalculateInvestment_regular by assumption.
  - intros Hin. apply in_map_iff in Hin. destruct Hin as [s [Es Hs]].
    apply filter_In in Hs. destruct Hs as [_ Hs].
    apply negb_true_iff, String.eqb_neq in Hs. contradiction.
  - intros Hin. now apply calculate_ids.
Qed.

(** ** Sessions *)

(** X10 (what a session keeps of the form).  In every state of a session
    (fresh ids for added stocks), the budget is not [NaN], every listed
    stock has a non-empty name, a price above 0 and an expected return not
    below 0, and the ids of the listed stocks are pairwise distinct. *)
Theorem session_keeps_inputs_valid (st : AppState) :
  reachable st ->
  isNaN (budget st) = false
  /\ Forall acceptedStock (stocks st)
  /\ NoDup (map id (stocks st)).
Proof.
  intros H. destruct (reachable_session_inv st H) as (Hb & Hv & Hnd & _).
  auto.
Qed.

(** X11 (what a session keeps of the results).  In every state of a
    session the results hold at most one entry per id. *)
Theorem session_results_distinct (st : AppState) :
  reachable st -> NoDup (map stockId (investmentResults st)).
Proof.
  intros H. destruct (reachable_session_inv st H) as (_ & _ & _ & Hnd).
  exact Hnd.
Qed.

(** ** The AI assistant *)

(** X12 (failures of the assistant).  When the client is constructed and
    the call to the model is rejected, both text handlers show one of the
    two fixed messages of [getGeminiResponse] -- the API-key message
    exactly when an [Error] whose message contains 'Requested entity was
    not found.' was thrown -- never the thrown message itself nor their own
    fallback text, and they reset their busy flag. *)
Theorem assistant_failure_messages (trim : string -> string)
    (generateContent : GeminiModel -> string -> Settled)
    (text : string) (st : AssistantState) (error : Thrown) :
  let keyError :=
    match error with
    | ErrorObject message => includes message entityNotFound
    | OtherValue => false
    end in
  (trim text <> EmptyString ->
   generateContent Flash text = inr error ->
   handleGeminiQuery trim None generateContent text st =
   (mkAssistant (if keyError then apiKeyMessage else failedMessage)
                false (isGeneratingIdeas st), []))
  /\ (generateContent Flash (stockIdeasPrompt text) = inr error ->
      handleGenerateIdeas None generateContent text st =
      mkAssistant (if keyError then apiKeyMessage else failedMessage)
                  (isQueryingGemini st) false).
Proof.
  cbv zeta. split.
  - intros Hne Herr. unfold handleGeminiQuery, getGeminiResponse.
    apply String.eqb_neq in Hne. rewrite Hne, Herr.
    destruct error as [m|]; [destruct (includes m entityNotFound)|]; reflexivity.
  - intros Herr. unfold handleGenerateIdeas, getStockIdeas, getGeminiResponse.
    rewrite Herr.
    destruct error as [m|]; [destruct (includes m entityNotFound)|]; reflexivity.
Qed.

Lemma sortedStocks_unique_witness :
  Forall valid_stock [tieX; tieY]
  /\ StronglySorted descending [tieX; tieY]
  /\ [tieX; tieY] = sortedStocks [tieX; tieY].
Proof.
  assert (Hv : Forall valid_stock [tieX; tieY])
    by (repeat constructor; [apply valid_tieX|apply valid_tieY]).
  assert (Hs : StronglySorted descending [tieX; tieY]).
  { repeat constructor. }
  split; [exact Hv|]. split; [exact Hs|].
  exact (sortedStocks_unique [tieX; tieY] [tieX; tieY] Hv
           (Permutation_refl _) Hs (fun e => eq_refl)).
Defined.

(** ** Instances *)

Lemma valid_stockP : valid_stock stockP.
Proof.
  exists (Q2Qc (inject_Z 10)), (Q2Qc (inject_Z 10)).
  repeat split; try reflexivity. discriminate.
Qed.

Lemma whole_leftover_witness :
  (0 < 120 <= 2 ^ 51)%Z
  /\ Forall whole_price [stockA; stockB]
  /\ exists r,
       Double.remainingBudget (Double.allocate (of_Z 120) [stockA; stockB]) = of_Z r
       /\ (0 <= r < 120)%Z
       /\ (forall s, In s [stockA; stockB] -> (of_Z r <? price s)%js = true).
Proof.
  assert (HB : (0 < 120 <= 2 ^ 51)%Z) by (split; [reflexivity|discriminate]).
  assert (Hv : Forall whole_price [stockA; stockB]).
  { repeat constructor.
    - exists 100%Z. split; [reflexivity|]. split; [reflexivity|discriminate].
    - exists 50%Z. split; [reflexivity|]. split; [reflexivity|discriminate]. }
  split; [exact HB|]. split; [exact Hv|].
  apply (whole_leftover (mkState (of_Z 120) [stockA; stockB] [] 0%js 0%js) 120
           eq_refl HB Hv).
  discriminate.
Defined.

Lemma double_return_consistency_witness :
  Forall whole_return [stockA; stockB]
  /\ NoDup (map id [stockA; stockB])
  /\ double_consistent [stockA; stockB]
       (investmentResults (Double.allocate (of_Z 120) [stockA; stockB])).
Proof.
  assert (Hv : Forall whole_return [stockA; stockB]).
  { repeat constructor; exists 10%Z; (split; [reflexivity|]);
      (split; discriminate). }
  assert (Hnd : NoDup (map id [stockA; stockB]))
    by (apply NoDup_two; discriminate).
  split; [exact Hv|]. split; [exact Hnd|].
  exact (double_return_consistency
           (mkState (of_Z 120) [stockA; stockB] [] 0%js 0%js) Hv Hnd).
Defined.

Lemma fractional_share_not_whole :
  ~ wholeShares (mkResult "A" "A" (of_Q (2 # 10)) (of_Z 20) (of_Z 2)).
Proof.
  intros (n & _ & H). cbn [fraction] in H. unfold of_Q, of_Z in H.
  injection H as H. change (Qred (2 # 10) = Qred (inject_Z n)) in H.
  assert (E : (2 # 10 == inject_Z n)%Q).
  { rewrite <- (Qred_correct (2 # 10)), H. apply Qred_correct. }
  unfold Qeq in E. cbn in E. lia.
Qed.

Lemma one_fractional_entry_witness :
  Forall valid_stock [stockA; stockB]
  /\ In (mkResult "A" "A" (of_Q (2 # 10)) (of_Z 20) (of_Z 2))
        (investmentResults (allocate (of_Z 120) [stockA; stockB]))
  /\ ~ wholeShares (mkResult "A" "A" (of_Q (2 # 10)) (of_Z 20) (of_Z 2))
  /\ forall r, In r (investmentResults (allocate (of_Z 120) [stockA; stockB])) ->
       ~ wholeShares r -> mkResult "A" "A" (of_Q (2 # 10)) (of_Z 20) (of_Z 2) = r.
Proof.
  assert (Hv : Forall valid_stock [stockA; stockB])
    by (repeat constructor; [apply valid_stockA|apply valid_stockB]).
  assert (Hin : In (mkResult "A" "A" (of_Q (2 # 10)) (of_Z 20) (of_Z 2))
                  (investmentResults (allocate (of_Z 120) [stockA; stockB]))).
  { left. vm_compute. number_eq. }
  split; [exact Hv|]. split; [exact Hin|].
  split; [exact fractional_share_not_whole|].
  intros r Hr Hn.
  exact (one_fractional_entry (mkState (of_Z 120) [stockA; stockB] [] 0%js 0%js)
           (Q2Qc (inject_Z 120)) eq_refl Hv _ r Hin Hr fractional_share_not_whole Hn).
Defined.

Lemma funding_follows_efficiency_witness :
  Forall valid_stock [stockA; stockB; stockP]
  /\ NoDup (map id [stockA; stockB; stockP])
  /\ (efficiency stockB >? efficiency stockA)%js = true
  /\ findResult (investmentResults (allocate (of_Z 10) [stockA; stockB; stockP])) "B" =
     Some (zeroResult stockB)
  /\ findResult (investmentResults (allocate (of_Z 10) [stockA; stockB; stockP])) "A" =
     Some (zeroResult stockA)
  /\ investedAmount (zeroResult stockA) = 0%js.
Proof.
  assert (Hv : Forall valid_stock [stockA; stockB; stockP])
    by (repeat constructor; [apply valid_stockA|apply valid_stockB|apply valid_stockP]).
  assert (Hnd : NoDup (map id [stockA; stockB; stockP]))
    by (apply NoDup_three; discriminate).
  assert (He : (efficiency stockB >? efficiency stockA)%js = true) by reflexivity.
  assert (H1 : findResult (investmentResults (allocate (of_Z 10) [stockA; stockB; stockP])) "B" =
               Some (zeroResult stockB)) by reflexivity.
  assert (H2 : findResult (investmentResults (allocate (of_Z 10) [stockA; stockB; stockP])) "A" =
               Some (zeroResult stockA)) by reflexivity.
  split; [exact Hv|]. split; [exact Hnd|]. split; [exact He|].
  split; [exact H1|]. split; [exact H2|].
  exact (funding_follows_efficiency
           (mkState (of_Z 10) [stockA; stockB; stockP] [] 0%js 0%js)
           (Q2Qc (inject_Z 10)) eq_refl Hv Hnd
           stockB stockA (zeroResult stockB) (zeroResult stockA)
           (or_intror (or_introl eq_refl)) (or_introl eq_refl) He H1 H2 eq_refl).
Defined.

Lemma adjust_removed_stock_witness :
  In "B" (map id (stocks (allocate (of_Z 120) [stockA; stockB])))
  /\ acceptedAmount (of_Z 10) = true
  /\ In "B" (map stockId (investmentResults
                            (fst (onRemoveStock "B" (allocate (of_Z 120) [stockA; stockB])))))
  /\ onAdjustInvestment "B" (of_Z 10)
       (fst (onRemoveStock "B" (allocate (of_Z 120) [stockA; stockB]))) =
     (fst (onRemoveStock "B" (allocate (of_Z 120) [stockA; stockB])), [StockNotFoundAlert]).
Proof.
  assert (Hin : In "B" (map id (stocks (allocate (of_Z 120) [stockA; stockB]))))
    by (right; left; reflexivity).
  assert (Hacc : acceptedAmount (of_Z 10) = true) by reflexivity.
  split; [exact Hin|]. split; [exact Hacc|].
  exact (adjust_removed_stock (allocate (of_Z 120) [stockA; stockB]) "B" (of_Z 10)
           Hin Hacc).
Defined.

Lemma results_carry_stock_names_witness :
  NoDup (map id [stockA; stockB])
  /\ map label (investmentResults (allocate (of_Z 120) [stockA; stockB])) =
     [("A", "A"); ("B", "B")].
Proof.
  assert (Hnd : NoDup (map id [stockA; stockB])) by (apply NoDup_two; discriminate).
  split; [exact Hnd|].
  exact (results_carry_stock_names
           (mkState (of_Z 120) [stockA; stockB] [] 0%js 0%js) Hnd).
Defined.

Lemma removal_recomputes_over_previous_list_witness :
  In "B" (map id (stocks (allocate (of_Z 120) [stockA; stockB])))
  /\ ~ In "B" (map id (stocks (fst (onRemoveStock "B" (allocate (of_Z 120) [stockA; stockB])))))
  /\ In "B" (map stockId (investmentResults
                            (fst (onRemoveStock "B" (allocate (of_Z 120) [stockA; stockB]))))).
Proof.
  assert (Hin : In "B" (map id (stocks (allocate (of_Z 120) [stockA; stockB]))))
    by (right; left; reflexivity).
  destruct (removal_recomputes_over_previous_list
              (allocate (of_Z 120) [stockA; stockB]) "B")
    as (_ & _ & _ & _ & _ & _ & Hgone & Hstill).
  split; [exact Hin|]. split; [exact Hgone|exact (Hstill Hin)].
Defined.

Lemma sessionState_reachable : reachable sessionState.
Proof.
  unfold sessionState. apply reachable_next; [|exact I].
  apply reachable_next; [apply reachable_initial|].
  intros [].
Qed.

Lemma session_keeps_inputs_valid_witness :
  reachable sessionState
  /\ isNaN (budget sessionState) = false
  /\ Forall acceptedStock (stocks sessionState)
  /\ NoDup (map id (stocks sessionState)).
Proof.
  split; [exact sessionState_reachable|].
  exact (session_keeps_inputs_valid sessionState sessionState_reachable).
Defined.

Lemma session_results_distinct_witness :
  reachable sessionState
  /\ NoDup (map stockId (investmentResults sessionState)).
Proof.
  split; [exact sessionState_reachable|].
  exact (session_results_distinct sessionState sessionState_reachable).
Defined.

Lemma assistant_failure_messages_witness :
  handleGeminiQuery (fun s => s) None
    (fun _ _ => inr (ErrorObject "404: Requested entity was not found. (models/x)"))
    "hello" (mkAssistant "old" false false) =
  (mkAssistant apiKeyMessage false false, [])
  /\ handleGenerateIdeas None (fun _ _ => inr OtherValue)
       "tech" (mkAssistant "old" false true) =
     mkAssistant failedMessage false false.
Proof.
  destruct (assistant_failure_messages (fun s => s)
              (fun _ _ => inr (ErrorObject "404: Requested entity was not found. (models/x)"))
              "hello" (mkAssistant "old" false false)
              (ErrorObject "404: Requested entity was not found. (models/x)"))
    as [Hq _].
  destruct (assistant_failure_messages (fun s => s)
              (fun _ _ => inr OtherValue)
              "tech" (mkAssistant "old" false true) OtherValue)
    as [_ Hi].
  split.
  - apply Hq; [discriminate|reflexivity].
  - apply Hi. reflexivity.
Defined.
